(** * Inline colour annotator: the delimiter scanner of [annotate-delimiters.js]

    A shallow embedding of [mulberry32], [pickColor] and [annotate], followed
    by the properties of the scan that the specification states.

    Conventions of the embedding.
    - A JavaScript string is its sequence of UTF-16 code units ([list N]);
      [content[i]] is one code unit, [content.length] the number of units.
    - Colours, [kind] tags and the like are opaque strings; a value that may
      be [undefined] is an [option], [None] standing for [undefined].
    - The arrays [stack] and [ranges] are lists. [ranges] grows at its end;
      [stack] is kept with its top at the head, so [push] is a cons and
      [pop] removes the head.
    - The mutable locals of [annotate] (the generator's [t], [ranges],
      [stack], [usedColors], [line], [col] and the loop index [i]) are the
      fields of one record that is passed from one iteration to the next. *)

From Stdlib Require Import ZArith.
From stdpp Require Import gmap strings list fin_maps sorting.

Local Open Scope string_scope.
Local Open Scope list_scope.

(* ===================================================================== *)
(** ** Numbers: 32-bit integer operations and the doubles they come from  *)
(* ===================================================================== *)

Module Num.
Local Open Scope Z_scope.

(** [ToUint32] and [ToInt32] of an integer-valued number. *)
Definition toUint32 (x : Z) : Z := x mod 2 ^ 32.
Definition toInt32 (x : Z) : Z := (x + 2 ^ 31) mod 2 ^ 32 - 2 ^ 31.

(** [x >>> n], [x ^ y], [x | y] and [Math.imul(x, y)]. *)
Definition ushr (x n : Z) : Z := Z.shiftr (toUint32 x) n.
Definition bxor (x y : Z) : Z := Z.lxor (toInt32 x) (toInt32 y).
Definition bor (x y : Z) : Z := Z.lor (toInt32 x) (toInt32 y).
Definition imul (x y : Z) : Z := toInt32 (toInt32 x * toInt32 y).

(** The double nearest to a non-negative integer [x], ties to even: every
    integer below [2^53] is a double; above, the 53 leading bits are kept. *)
Definition fround (x : Z) : Z :=
  if x <? 2 ^ 53 then x
  else
    let e := Z.log2 x - 52 in
    let q := x / 2 ^ e in
    let r := x mod 2 ^ e in
    if 2 * r <? 2 ^ e then q * 2 ^ e
    else if 2 ^ e <? 2 * r then (q + 1) * 2 ^ e
    else if Z.even q then q * 2 ^ e
    else (q + 1) * 2 ^ e.

End Num.

(* ===================================================================== *)
(** ** The seeded generator                                               *)
(* ===================================================================== *)

(** [mulberry32(seed)] returns a closure over one variable [t]; the closure
    is represented by the current value of [t]. *)
Definition mulberry32 (seed : Z) : Z := Num.toUint32 seed.

(** One call of the closure: the new [t], and the numerator [u] of the
    returned number [u / 4294967296]. [t += 0x6D2B79F5] is an addition of
    doubles, the bit operations read [t] modulo [2^32]. *)
Definition rand_call (t : Z) : Z * Z :=
  let t := Num.fround (t + 0x6D2B79F5)%Z in
  let r := Num.imul (Num.bxor t (Num.ushr t 15)) (Num.bor 1 t) in
  let r := Num.bxor r (r + Num.imul (Num.bxor r (Num.ushr r 7)) (Num.bor 61 r))%Z in
  (t, Num.ushr (Num.bxor r (Num.ushr r 14)) 0).

(* ===================================================================== *)
(** ** Data                                                               *)
(* ===================================================================== *)

(** A colour as the code handles it: a string, or [undefined]. *)
Definition jscolor : Type := option string.

Definition fallback : string := "#CCCCCC".

(** The value of one entry of [cfg.symbols]. [spec.kind] and [spec.color]
    are [None] when the property is missing. *)
Record SymbolSpec := { kind : option string; spec_color : option string }.

(** What [symbolMap[ch]] can hold: a falsy value ([null], [false], [0], the
    empty string), on which the scan skips the character, or a value with
    properties. *)
Inductive SpecEntry :=
  | Falsy
  | Obj (spec : SymbolSpec).

(** [cfg]: the [symbols] property may be missing ([cfg.symbols || {}]). *)
Record Config := { symbols : option (gmap (list N) SpecEntry) }.

Record Position := { line : nat; col : nat; index : nat }.

(** A stack entry [{ symbol, color, start }]. *)
Record OpenRegion := { o_symbol : N; o_color : jscolor; o_start : Position }.

(** An element of [ranges]. [open] is [Some true] when the property is
    written ([open: true]) and [None] when the object has no such property. *)
Record Range := {
  symbol : N;
  color : jscolor;
  start : Position;
  end_ : Position;
  open : option bool
}.

Record AnnotationResult := { ranges : list Range }.

(** The locals of [annotate] during the scan. *)
Record ScanState := {
  s_rand : Z;
  s_ranges : list Range;
  s_stack : list OpenRegion;
  s_used : gset jscolor;
  s_line : nat;
  s_col : nat;
  s_i : nat
}.

(* ===================================================================== *)
(** ** Defaults                                                           *)
(* ===================================================================== *)

Definition TRIANGLE : N := 0x25B3.  (* white up-pointing triangle *)
Definition SQUARE : N := 0x25A2.    (* white square with rounded corners *)
Definition CIRCLE : N := 0x25CB.    (* white circle *)
Definition NEWLINE : N := 10.

Definition defaultPalette : list string :=
  [ "#FF6B6B"; "#FFD166"; "#6ED796"; "#64D6E2"; "#89B4FA"; "#C792EA";
    "#F9E2AF"; "#A6E3A1"; "#F38BA8"; "#74C7EC"; "#FAB387"; "#B4BEFE" ].

Definition buildDefaultConfig : Config :=
  {| symbols := Some (
       <[ [TRIANGLE] := Obj {| kind := Some "onoff"; spec_color := Some "#FFE26A" |} ]>
       (<[ [SQUARE] := Obj {| kind := Some "random"; spec_color := None |} ]>
       (<[ [CIRCLE] := Obj {| kind := Some "random"; spec_color := None |} ]> ∅))) |}.

(* ===================================================================== *)
(** ** pickColor                                                          *)
(* ===================================================================== *)

(** [pickColor(rand, palette, usedSet)]: the colour, with the generator and
    the set as the call leaves them. [palette] is [None] for a missing
    palette. [Math.floor(rand() * arr.length)] is the product of two doubles,
    rounded, then floored. *)
Definition pickColor (t : Z) (palette : option (list string)) (usedSet : gset jscolor)
    : jscolor * Z * gset jscolor :=
  match palette with
  | None | Some [] => (Some fallback, t, usedSet)
  | Some pal =>
      let unused := filter (λ c, Some c ∉ usedSet) pal in
      let arr := match unused with [] => pal | _ => unused end in
      let '(t', u) := rand_call t in
      let idx := (Num.fround (u * Z.of_nat (length arr)) / 2 ^ 32)%Z in
      let color := arr !! Z.to_nat idx in
      (color, t', {[ color ]} ∪ usedSet)
  end.

(* ===================================================================== *)
(** ** annotate                                                           *)
(* ===================================================================== *)

Section Annotate.

Variable cfg : Config.
Variable palette : option (list string).

Definition symbolMap : gmap (list N) SpecEntry := default ∅ (symbols cfg).
Definition delimiters : gset (list N) := dom symbolMap.

Definition cursor (st : ScanState) : Position :=
  {| line := s_line st; col := s_col st; index := s_i st |}.

(** The [close] branch: pop, and push the finished range on [ranges]. *)
Definition close_region (ch : N) (top : OpenRegion) (rest : list OpenRegion)
    (st : ScanState) : ScanState :=
  {| s_rand := s_rand st;
     s_ranges := s_ranges st ++
       [ {| symbol := ch; color := o_color top; start := o_start top;
            end_ := cursor st; open := None |} ];
     s_stack := rest;
     s_used := s_used st;
     s_line := s_line st; s_col := s_col st; s_i := s_i st |}.

(** The colour of a region that opens, by [spec.kind], with the generator
    and [usedColors] as the resolution leaves them. *)
Definition resolve_color (spec : SymbolSpec) (st : ScanState)
    : jscolor * Z * gset jscolor :=
  if bool_decide (kind spec = Some "onoff") then
    let color :=
      match spec_color spec with
      | None | Some "" => Some fallback      (* spec.color || '#CCCCCC' *)
      | Some c => Some c
      end in
    (color, s_rand st, {[ color ]} ∪ s_used st)
  else if bool_decide (kind spec = Some "random") then
    pickColor (s_rand st) palette (s_used st)
  else (Some fallback, s_rand st, s_used st).

(** The [open] branch: resolve the colour, push the entry. *)
Definition open_region (ch : N) (spec : SymbolSpec) (st : ScanState) : ScanState :=
  let '(color, t, used) := resolve_color spec st in
  {| s_rand := t;
     s_ranges := s_ranges st;
     s_stack := {| o_symbol := ch; o_color := color; o_start := cursor st |} :: s_stack st;
     s_used := used;
     s_line := s_line st; s_col := s_col st; s_i := s_i st |}.

Definition set_cursor (l c : nat) (st : ScanState) : ScanState :=
  {| s_rand := s_rand st; s_ranges := s_ranges st; s_stack := s_stack st;
     s_used := s_used st; s_line := l; s_col := c; s_i := s_i st |}.

(** The body of the [for] loop on the character [ch = content[i]]. *)
Definition body (ch : N) (st : ScanState) : ScanState :=
  if bool_decide ([ch] ∈ delimiters) then
    match symbolMap !! [ch] with
    | None | Some Falsy => st                       (* if (!spec) continue; *)
    | Some (Obj spec) =>
        let st' :=
          match s_stack st with
          | top :: rest =>
              if bool_decide (o_symbol top = ch)
              then close_region ch top rest st
              else open_region ch spec st
          | [] => open_region ch spec st
          end in
        set_cursor (s_line st') (s_col st' + 1) st'
    end
  else if bool_decide (ch = NEWLINE) then set_cursor (s_line st + 1) 0 st
  else set_cursor (s_line st) (s_col st + 1) st.

(** [i++], run after the body on every path, [continue] included. *)
Definition next_i (st : ScanState) : ScanState :=
  {| s_rand := s_rand st; s_ranges := s_ranges st; s_stack := s_stack st;
     s_used := s_used st; s_line := s_line st; s_col := s_col st;
     s_i := S (s_i st) |}.

Definition step (ch : N) (st : ScanState) : ScanState := next_i (body ch st).

(** The [for] loop over the characters that remain. *)
Fixpoint loop (content : list N) (st : ScanState) : ScanState :=
  match content with
  | [] => st
  | ch :: rest => loop rest (step ch st)
  end.

Definition initial (seed : Z) : ScanState :=
  {| s_rand := mulberry32 (Num.toUint32 seed);
     s_ranges := []; s_stack := []; s_used := ∅;
     s_line := 0; s_col := 0; s_i := 0 |}.

(** The state after the [for] loop has consumed [content]. *)
Definition scan (seed : Z) (content : list N) : ScanState :=
  loop content (initial seed).

Definition eof_range (eofPos : Position) (o : OpenRegion) : Range :=
  {| symbol := o_symbol o; color := o_color o; start := o_start o;
     end_ := eofPos; open := Some true |}.

(** The [while (stack.length)] loop. *)
Fixpoint drain (eofPos : Position) (stack : list OpenRegion) (rs : list Range)
    : list Range :=
  match stack with
  | [] => rs
  | o :: stack' => drain eofPos stack' (rs ++ [eof_range eofPos o])
  end.

End Annotate.

(** [annotate(content, cfg, palette, seed)]. A call without [seed] is the
    call with seed [0]. *)
Definition annotate (content : list N) (cfg : Config)
    (palette : option (list string)) (seed : Z) : AnnotationResult :=
  let st := scan cfg palette seed content in
  let eofPos := {| line := s_line st; col := s_col st; index := length content |} in
  {| ranges := drain eofPos (s_stack st) (s_ranges st) |}.

Local Close Scope string_scope.

(* ===================================================================== *)
(** ** Vocabulary of the specification                                    *)
(* ===================================================================== *)

(** A configured symbol: a character that [symbols] maps to a SymbolSpec. *)
Definition configured (cfg : Config) (ch : N) : bool :=
  match symbolMap cfg !! [ch] with
  | Some (Obj _) => true
  | _ => false
  end.

(** The top entry of the stack carries the symbol [ch]. *)
Definition top_is (stack : list OpenRegion) (ch : N) : bool :=
  match stack with
  | top :: _ => bool_decide (o_symbol top = ch)
  | [] => false
  end.

(** An opening occurrence: a configured symbol that does not meet itself on
    top of the stack. *)
Definition is_opening (cfg : Config) (st : ScanState) (ch : N) : bool :=
  configured cfg ch && negb (top_is (s_stack st) ch).

(** The offsets of the opening occurrences met by the loop from [st] on. *)
Fixpoint openings_from (cfg : Config) (palette : option (list string))
    (content : list N) (st : ScanState) : list nat :=
  match content with
  | [] => []
  | ch :: rest =>
      (if is_opening cfg st ch then [s_i st] else [])
        ++ openings_from cfg palette rest (step cfg palette ch st)
  end.

Definition openings (cfg : Config) (palette : option (list string))
    (seed : Z) (content : list N) : list nat :=
  openings_from cfg palette content (initial seed).

(** Occurrences of a character in a text. *)
Definition occurrences (ch : N) (content : list N) : nat :=
  length (filter (λ c, c = ch) content).

(** The ranges of a symbol, and those of them left open at end of input. *)
Definition ranges_of (ch : N) (rs : list Range) : list Range :=
  filter (λ r, symbol r = ch) rs.
Definition unclosed_of (ch : N) (rs : list Range) : list Range :=
  filter (λ r, symbol r = ch ∧ open r = Some true) rs.

(** The end-of-file position of a scan. *)
Definition eofPos (cfg : Config) (palette : option (list string))
    (seed : Z) (content : list N) : Position :=
  let st := scan cfg palette seed content in
  {| line := s_line st; col := s_col st; index := length content |}.

(** The entries of a stack that carry the symbol [s]. *)
Definition entries_of (s : N) (stack : list OpenRegion) : list OpenRegion :=
  filter (λ o, o_symbol o = s) stack.

(** A configured symbol is left dangling by a text when an entry for it is
    still on the stack after the scan. *)
Definition dangling (cfg : Config) (palette : option (list string)) (seed : Z)
    (content : list N) (s : N) : Prop :=
  ∃ o, o ∈ s_stack (scan cfg palette seed content) ∧ o_symbol o = s.

Definition end_index (r : Range) : nat := index (end_ r).
Definition start_index (r : Range) : nat := index (start r).
Definition entry_index (o : OpenRegion) : nat := index (o_start o).

(* ===================================================================== *)
(** ** One iteration, as relations between states                         *)
(* ===================================================================== *)

Definition bump (st : ScanState) : ScanState :=
  set_cursor (s_line st) (s_col st + 1) st.

(** The paths through the body of the loop. *)
Inductive body_case (cfg : Config) (palette : option (list string))
    (ch : N) (st : ScanState) : ScanState → Prop :=
  | bc_skip :
      symbolMap cfg !! [ch] = Some Falsy →
      body_case cfg palette ch st st
  | bc_close spec top rest :
      symbolMap cfg !! [ch] = Some (Obj spec) →
      s_stack st = top :: rest → o_symbol top = ch →
      body_case cfg palette ch st (bump (close_region ch top rest st))
  | bc_open spec :
      symbolMap cfg !! [ch] = Some (Obj spec) →
      top_is (s_stack st) ch = false →
      body_case cfg palette ch st (bump (open_region palette ch spec st))
  | bc_newline :
      symbolMap cfg !! [ch] = None → ch = NEWLINE →
      body_case cfg palette ch st (set_cursor (s_line st + 1) 0 st)
  | bc_plain :
      symbolMap cfg !! [ch] = None → ch ≠ NEWLINE →
      body_case cfg palette ch st (bump st).

(** [st'] is [st] after a closing occurrence of [ch]: the top entry is
    popped and its range, ending at the cursor of [st], is emitted. *)
Definition closes (ch : N) (st st' : ScanState) : Prop :=
  ∃ top rest,
    s_stack st = top :: rest ∧ o_symbol top = ch ∧
    s_stack st' = rest ∧
    s_ranges st' = s_ranges st ++
      [ {| symbol := ch; color := o_color top; start := o_start top;
           end_ := cursor st; open := None |} ].

(** [st'] is [st] after an opening occurrence of [ch]: an entry starting at
    the cursor of [st] is pushed, nothing is emitted. *)
Definition opens (ch : N) (st st' : ScanState) : Prop :=
  ∃ c,
    s_stack st' = {| o_symbol := ch; o_color := c; o_start := cursor st |} :: s_stack st ∧
    s_ranges st' = s_ranges st.

Inductive step_effect (cfg : Config) (palette : option (list string))
    (ch : N) (st st' : ScanState) : Prop :=
  | eff_inert :
      configured cfg ch = false →
      s_ranges st' = s_ranges st → s_stack st' = s_stack st →
      step_effect cfg palette ch st st'
  | eff_close :
      configured cfg ch = true → top_is (s_stack st) ch = true →
      closes ch st st' →
      step_effect cfg palette ch st st'
  | eff_open spec :
      configured cfg ch = true → top_is (s_stack st) ch = false →
      symbolMap cfg !! [ch] = Some (Obj spec) →
      s_stack st' =
        {| o_symbol := ch; o_color := (resolve_color palette spec st).1.1;
           o_start := cursor st |} :: s_stack st →
      s_ranges st' = s_ranges st →
      step_effect cfg palette ch st st'.

(* ===================================================================== *)
(** ** Invariants and measures of the scan                                *)
(* ===================================================================== *)

(** What holds of [ranges] and [stack] between two iterations: the emitted
    ranges carry no [open] property, start before they end and end before
    the current offset, in increasing order of their ends; the entries of
    the stack start before the current offset, the more recent nearer to
    the top. *)
Record scan_inv (st : ScanState) : Prop := {
  inv_ranges :
    Forall (λ r, open r = None ∧ start_index r < end_index r ∧ end_index r < s_i st)
           (s_ranges st);
  inv_ranges_sorted : StronglySorted lt (map end_index (s_ranges st));
  inv_stack : Forall (λ o, entry_index o < s_i st) (s_stack st);
  inv_stack_sorted : StronglySorted gt (map entry_index (s_stack st))
}.

(** The offsets at which the regions held by a state were opened. *)
Definition opened_at (st : ScanState) : list nat :=
  map start_index (s_ranges st) ++ map entry_index (s_stack st).

(** The stack rule on symbols alone. *)
Definition toggle (ch : N) (shape : list N) : list N :=
  match shape with
  | t :: rest => if bool_decide (t = ch) then rest else ch :: shape
  | [] => [ch]
  end.

(** The symbols of the stack, top first. *)
Definition shape (st : ScanState) : list N := map o_symbol (s_stack st).

(** No two neighbours of the list are equal. *)
Fixpoint reduced (l : list N) : Prop :=
  match l with
  | a :: (b :: _) as t => a ≠ b ∧ reduced t
  | _ => True
  end.

(** Texts whose configured delimiters pair up and nest: a character that is
    not a configured symbol, or a pair of one configured symbol around a
    nested text, followed by a nested text. *)
Inductive Nested (cfg : Config) : list N → Prop :=
  | Nested_nil : Nested cfg []
  | Nested_plain c w :
      configured cfg c = false → Nested cfg w → Nested cfg (c :: w)
  | Nested_pair s w1 w2 :
      configured cfg s = true → Nested cfg w1 → Nested cfg w2 →
      Nested cfg (s :: w1 ++ s :: w2).

(* ===================================================================== *)
(** ** Predicates of the claims                                           *)
(* ===================================================================== *)

(** The cursor rule in the words of the specification: at the character
    [ch] that follows [pre], the offset grows by one; a newline increments
    the line and resets the column; any other character increments the
    column. *)
Definition cursor_rule (cfg : Config) (palette : option (list string))
    (seed : Z) (pre : list N) (ch : N) : Prop :=
  s_i (scan cfg palette seed (pre ++ [ch])) = S (s_i (scan cfg palette seed pre)) ∧
  if bool_decide (ch = NEWLINE)
  then s_line (scan cfg palette seed (pre ++ [ch])) = s_line (scan cfg palette seed pre) + 1 ∧
       s_col (scan cfg palette seed (pre ++ [ch])) = 0
  else s_line (scan cfg palette seed (pre ++ [ch])) = s_line (scan cfg palette seed pre) ∧
       s_col (scan cfg palette seed (pre ++ [ch])) = s_col (scan cfg palette seed pre) + 1.

(** A SymbolSpec of kind ['onoff'] without a [color], or of a kind that is
    neither ['onoff'] nor ['random']. *)
Definition fallback_spec (spec : SymbolSpec) : Prop :=
  (kind spec = Some "onoff"%string ∧ spec_color spec = None) ∨
  (kind spec ≠ Some "onoff"%string ∧ kind spec ≠ Some "random"%string).

(** A well-formed result for a text: every range belongs to a configured
    symbol, has a colour, starts before it ends, ends within the text or at
    its end, and either has no [open] property or has [open: true]. *)
Definition well_formed (cfg : Config) (content : list N) (res : AnnotationResult) : Prop :=
  Forall (λ r, configured cfg (symbol r) = true ∧ is_Some (color r) ∧
               start_index r < end_index r ≤ length content ∧
               (open r = None ∨ open r = Some true))
         (ranges res).

(* ===================================================================== *)
(** ** Inputs of the examples                                             *)
(* ===================================================================== *)

(** The text ["a\n△b△"]. *)
Definition example_text : list N := [97; NEWLINE; TRIANGLE; 98; TRIANGLE]%N.

(** The text [△▢△▢△]. *)
Definition odd_text : list N := [TRIANGLE; SQUARE; TRIANGLE; SQUARE; TRIANGLE].

(** The text [△x▢y▢z△]. *)
Definition nested_text : list N :=
  [TRIANGLE; 120; SQUARE; 121; SQUARE; 122; TRIANGLE]%N.

Definition annotate_stack_rule_witness_text : list N := [TRIANGLE; 98]%N.

(** A configuration whose one delimiter is the newline character. *)
Definition newline_config : Config :=
  {| symbols := Some {[ [NEWLINE] :=
       Obj {| kind := Some "onoff"%string; spec_color := Some "#FFE26A"%string |} ]} |}.

(** A configuration with a colourless on/off symbol and a symbol of an
    unknown kind. *)
Definition plain_config : Config :=
  {| symbols := Some (
       <[ [TRIANGLE] := Obj {| kind := Some "onoff"%string; spec_color := None |} ]>
       (<[ [SQUARE] := Obj {| kind := Some "fixed"%string;
                              spec_color := Some "#FFE26A"%string |} ]> ∅)) |}.

(* ===================================================================== *)
(** ** More vocabulary: the generator, positions and colours              *)
(* ===================================================================== *)

(** The number drawn from the value that [t] has after the increment. *)
Definition mix (t : Z) : Z :=
  let r := Num.imul (Num.bxor t (Num.ushr t 15)) (Num.bor 1 t) in
  let r := Num.bxor r (r + Num.imul (Num.bxor r (Num.ushr r 7)) (Num.bor 61 r))%Z in
  Num.ushr (Num.bxor r (Num.ushr r 14)) 0.

(** [p] comes before [q] in reading order: on an earlier line, or on the
    same line at a smaller column. *)
Definition pos_lt (p q : Position) : Prop :=
  line p < line q ∨ (line p = line q ∧ col p < col q).

(** The characters that follow the last newline of a text, last first. *)
Fixpoint until_newline (rev_text : list N) : list N :=
  match rev_text with
  | [] => []
  | c :: rest => if bool_decide (c = NEWLINE) then [] else c :: until_newline rest
  end.

(** The position that follows the characters [pre]: as many lines as [pre]
    has newlines, as many columns as [pre] has characters after the last
    of them, and the offset [length pre]. *)
Definition position_after (pre : list N) : Position :=
  {| line := occurrences NEWLINE pre;
     col := length (until_newline (reverse pre));
     index := length pre |}.

(** A range without its colour. *)
Definition geometry (r : Range) : N * Position * Position * option bool :=
  (symbol r, start r, end_ r, open r).

(** A symbol configured with kind ['random']. *)
Definition random_symbol (cfg : Config) (s : N) : Prop :=
  ∃ spec, symbolMap cfg !! [s] = Some (Obj spec) ∧ kind spec = Some "random"%string.

Definition is_random (cfg : Config) (s : N) : bool :=
  match symbolMap cfg !! [s] with
  | Some (Obj spec) => bool_decide (kind spec = Some "random"%string)
  | _ => false
  end.

(** The ranges left open at end of input, and the closed ones. *)
Definition unclosed_ranges (rs : list Range) : list Range :=
  filter (λ r, open r = Some true) rs.
Definition closed_ranges (rs : list Range) : list Range :=
  filter (λ r, open r = None) rs.

(** Two states of the scan that agree on everything but colours: the same
    cursor, the same ranges and the same entries of the stack up to their
    colours. *)
Definition same_geometry (st1 st2 : ScanState) : Prop :=
  s_line st1 = s_line st2 ∧ s_col st1 = s_col st2 ∧ s_i st1 = s_i st2 ∧
  map geometry (s_ranges st1) = map geometry (s_ranges st2) ∧
  map (λ o, (o_symbol o, o_start o)) (s_stack st1) =
  map (λ o, (o_symbol o, o_start o)) (s_stack st2).

(** The colours of the regions of symbols of kind ['random'] that a state
    holds, closed or still open. *)
Definition random_colours (cfg : Config) (st : ScanState) : list jscolor :=
  map color (filter (λ r, is_random cfg (symbol r) = true) (s_ranges st)) ++
  map o_color (filter (λ o, is_random cfg (o_symbol o) = true) (s_stack st)).

(* ===================================================================== *)
(** ** parseArgs                                                          *)
(* ===================================================================== *)

(** A number as [parseInt] returns it: [NaN], an integer (the two zeros are
    not told apart: both are falsy), or an infinity. *)
Inductive jsnumber :=
  | NaN
  | Num (z : Z)
  | Infinity (negative : bool).

(** The object [out] of [parseArgs]: [arg_positional] is its property [_];
    a property that was never set, or was set to [undefined], is [None]. *)
Record Args := {
  arg_positional : list string;
  arg_palette : option string;
  arg_config : option string;
  arg_out : option string;
  arg_seed : option jsnumber
}.

Definition is_palette_flag (a : string) : bool :=
  bool_decide (a = "--palette"%string) || bool_decide (a = "-p"%string).
Definition is_config_flag (a : string) : bool :=
  bool_decide (a = "--config"%string) || bool_decide (a = "-c"%string).
Definition is_out_flag (a : string) : bool :=
  bool_decide (a = "--out"%string) || bool_decide (a = "-o"%string).
Definition is_seed_flag (a : string) : bool := bool_decide (a = "--seed"%string).

(** One of the strings that [parseArgs] reads as an option. *)
Definition is_flag (a : string) : bool :=
  is_palette_flag a || is_config_flag a || is_out_flag a || is_seed_flag a.

Section ParseArgs.

(** [parseInt(s, 10)], a built-in of the language. *)
Variable parseInt10 : string → jsnumber.

(** [parseInt(v || '0', 10) || 0] for the string, or [undefined], that
    follows [--seed]. *)
Definition seed_of (v : option string) : jsnumber :=
  let s := match v with
           | None | Some ""%string => "0"%string
           | Some s => s
           end in
  match parseInt10 s with
  | NaN | Num 0 => Num 0
  | n => n
  end.

(** The loop of [parseArgs] over [argv[i..]]. An option takes the next
    element, whatever it is; when there is none it is set to [undefined]
    and the loop ends. *)
Fixpoint parse_loop (args : list string) (out : Args) : Args :=
  match args with
  | [] => out
  | a :: rest =>
      if is_palette_flag a then
        match rest with
        | [] => {| arg_positional := arg_positional out; arg_palette := None;
                   arg_config := arg_config out; arg_out := arg_out out;
                   arg_seed := arg_seed out |}
        | v :: rest' =>
            parse_loop rest'
              {| arg_positional := arg_positional out; arg_palette := Some v;
                 arg_config := arg_config out; arg_out := arg_out out;
                 arg_seed := arg_seed out |}
        end
      else if is_config_flag a then
        match rest with
        | [] => {| arg_positional := arg_positional out; arg_palette := arg_palette out;
                   arg_config := None; arg_out := arg_out out;
                   arg_seed := arg_seed out |}
        | v :: rest' =>
            parse_loop rest'
              {| arg_positional := arg_positional out; arg_palette := arg_palette out;
                 arg_config := Some v; arg_out := arg_out out;
                 arg_seed := arg_seed out |}
        end
      else if is_out_flag a then
        match rest with
        | [] => {| arg_positional := arg_positional out; arg_palette := arg_palette out;
                   arg_config := arg_config out; arg_out := None;
                   arg_seed := arg_seed out |}
        | v :: rest' =>
            parse_loop rest'
              {| arg_positional := arg_positional out; arg_palette := arg_palette out;
                 arg_config := arg_config out; arg_out := Some v;
                 arg_seed := arg_seed out |}
        end
      else if is_seed_flag a then
        match rest with
        | [] => {| arg_positional := arg_positional out; arg_palette := arg_palette out;
                   arg_config := arg_config out; arg_out := arg_out out;
                   arg_seed := Some (seed_of None) |}
        | v :: rest' =>
            parse_loop rest'
              {| arg_positional := arg_positional out; arg_palette := arg_palette out;
                 arg_config := arg_config out; arg_out := arg_out out;
                 arg_seed := Some (seed_of (Some v)) |}
        end
      else
        parse_loop rest
          {| arg_positional := arg_positional out ++ [a]; arg_palette := arg_palette out;
             arg_config := arg_config out; arg_out := arg_out out;
             arg_seed := arg_seed out |}
  end.

Definition parseArgs (argv : list string) : Args :=
  parse_loop (drop 2 argv)
    {| arg_positional := []; arg_palette := None; arg_config := None;
       arg_out := None; arg_seed := None |}.

End ParseArgs.

(** The seed that [main] passes to [annotate]:
    [Number.isFinite(args.seed) ? args.seed : 0]. *)
Definition main_seed (args : Args) : Z :=
  match arg_seed args with
  | Some (Num z) => z
  | _ => 0%Z
  end.

(* ===================================================================== *)
(** ** Hexadecimal colours of [make-vscode-theme.js]                      *)
(* ===================================================================== *)

#[global] Instance jsnumber_eq_dec : EqDecision jsnumber.
Proof. solve_decision. Defined.

Definition HASH : N := 35.

(** The white space and line terminators that [parseInt] skips. *)
Definition is_space (c : N) : bool :=
  bool_decide (c ∈ [9; 10; 11; 12; 13; 32; 160; 0x1680; 0x2028; 0x2029;
                    0x202F; 0x205F; 0x3000; 0xFEFF]%N)
  || ((0x2000 <=? c) && (c <=? 0x200A))%N.

Fixpoint trim_start (s : list N) : list N :=
  match s with
  | c :: rest => if is_space c then trim_start rest else s
  | [] => []
  end.

(** The value of a hexadecimal digit. *)
Definition hex_value (c : N) : option Z :=
  if ((48 <=? c) && (c <=? 57))%N then Some (Z.of_N c - 48)%Z
  else if ((97 <=? c) && (c <=? 102))%N then Some (Z.of_N c - 87)%Z
  else if ((65 <=? c) && (c <=? 70))%N then Some (Z.of_N c - 55)%Z
  else None.

(** The number written by the longest prefix of hexadecimal digits. *)
Fixpoint hex_digits (s : list N) (acc : Z) : Z :=
  match s with
  | c :: rest =>
      match hex_value c with
      | Some d => hex_digits rest (16 * acc + d)
      | None => acc
      end
  | [] => acc
  end.

(** [parseInt(s, 16)] on a string short enough for its value to be a
    double, as the slices of two characters below are: white space is
    skipped, a sign and a prefix [0x] are accepted, the digits are read up
    to the first character that is not one; without a digit the result is
    [NaN]. *)
Definition parseInt16 (s : list N) : jsnumber :=
  let s := trim_start s in
  let '(sign, s) :=
    match s with
    | 45%N :: rest => ((-1)%Z, rest)
    | 43%N :: rest => (1%Z, rest)
    | _ => (1%Z, s)
    end in
  let s :=
    match s with
    | 48%N :: x :: rest =>
        if bool_decide (x = 120%N) || bool_decide (x = 88%N) then rest else s
    | _ => s
    end in
  match s with
  | c :: _ =>
      match hex_value c with
      | Some _ => Num (sign * hex_digits s 0)
      | None => NaN
      end
  | [] => NaN
  end.

Record Rgb := { rgb_r : jsnumber; rgb_g : jsnumber; rgb_b : jsnumber }.

(** [h.replace("#", "")]: the string without its first [#]. *)
Fixpoint remove_hash (h : list N) : list N :=
  match h with
  | c :: rest => if bool_decide (c = HASH) then rest else c :: remove_hash rest
  | [] => []
  end.

Definition hexToRgb (h : list N) : Rgb :=
  let h := remove_hash h in
  {| rgb_r := parseInt16 (take 2 h);
     rgb_g := parseInt16 (take 2 (drop 2 h));
     rgb_b := parseInt16 (take 2 (drop 4 h)) |}.

(** A digit of [toString(16)]. *)
Definition hex_char (d : Z) : N :=
  if (d <? 10)%Z then Z.to_N (d + 48) else Z.to_N (d + 87).

(** [Math.max(0, Math.min(255, n)).toString(16).padStart(2, "0")]. *)
Definition hex_byte (n : jsnumber) : list N :=
  match n with
  | NaN => [78; 97; 78]%N                        (* "NaN" *)
  | Infinity negative => if negative then [48; 48]%N else [102; 102]%N
  | Num z =>
      let c := Z.max 0 (Z.min 255 z) in
      [hex_char (c / 16); hex_char (c mod 16)]
  end.

(** [toUpperCase] on a code unit of a string of [#], digits and letters of
    the basic Latin alphabet. *)
Definition upper (c : N) : N :=
  if ((97 <=? c) && (c <=? 122))%N then (c - 32)%N else c.

Definition rgbToHex (c : Rgb) : list N :=
  map upper (HASH :: hex_byte (rgb_r c) ++ hex_byte (rgb_g c) ++ hex_byte (rgb_b c)).

(** The test [/^#?[0-9a-fA-F]{6}$/] on the colour argument. *)
Definition is_hex_arg (s : list N) : bool :=
  let digits := match s with
                | c :: rest => if bool_decide (c = HASH) then rest else s
                | [] => s
                end in
  bool_decide (length digits = 6) && forallb (λ c, bool_decide (is_Some (hex_value c))) digits.

(** [HEX.startsWith("#") ? HEX : `#${HEX}`]. *)
Definition baseHex (s : list N) : list N :=
  match s with
  | c :: _ => if bool_decide (c = HASH) then s else HASH :: s
  | [] => HASH :: s
  end.

Definition clamp255 (z : Z) : Z := Z.max 0 (Z.min 255 z).

(* ===================================================================== *)
(** ** The loop body, case by case                                        *)
(* ===================================================================== *)

Section Body.

Context (cfg : Config) (palette : option (list string)).

Lemma body_spec ch st : body_case cfg palette ch st (body cfg palette ch st).
Proof.
  unfold body, delimiters.
  case_bool_decide as Hdom.
  - apply elem_of_dom in Hdom as [e He]. rewrite He.
    destruct e as [|spec]; [by constructor|].
    destruct (s_stack st) as [|top rest] eqn:Hst.
    + eapply bc_open; [done|]. by rewrite Hst.
    + case_bool_decide as Htop.
      * by eapply bc_close.
      * eapply bc_open; [done|]. rewrite Hst. simpl. by rewrite bool_decide_false.
  - apply not_elem_of_dom in Hdom.
    case_bool_decide; by constructor.
Qed.

Lemma open_region_stack ch spec st :
  s_stack (open_region palette ch spec st) =
  {| o_symbol := ch; o_color := (resolve_color palette spec st).1.1;
     o_start := cursor st |} :: s_stack st.
Proof. unfold open_region. by destruct (resolve_color _ _ _) as [[??]?]. Qed.

Lemma open_region_ranges ch spec st :
  s_ranges (open_region palette ch spec st) = s_ranges st.
Proof. unfold open_region. by destruct (resolve_color _ _ _) as [[??]?]. Qed.

Lemma open_region_cursor ch spec st :
  cursor (open_region palette ch spec st) = cursor st.
Proof. unfold open_region. by destruct (resolve_color _ _ _) as [[??]?]. Qed.

Lemma loop_app c1 c2 st :
  loop cfg palette (c1 ++ c2) st = loop cfg palette c2 (loop cfg palette c1 st).
Proof. revert st. induction c1 as [|ch c1 IH]; intros st; simpl; [done|apply IH]. Qed.

Lemma scan_snoc seed pre ch :
  scan cfg palette seed (pre ++ [ch]) = step cfg palette ch (scan cfg palette seed pre).
Proof. unfold scan. by rewrite loop_app. Qed.

(** Induction along the scan: a property of the initial state that every
    iteration preserves holds of the state after any text. *)
Lemma scan_ind seed (P : list N → ScanState → Prop) :
  P [] (initial seed) →
  (∀ pre ch, P pre (scan cfg palette seed pre) →
             P (pre ++ [ch]) (step cfg palette ch (scan cfg palette seed pre))) →
  ∀ content, P content (scan cfg palette seed content).
Proof.
  intros H0 Hstep content.
  induction content as [|ch pre IH] using rev_ind; [done|].
  rewrite scan_snoc. by apply Hstep.
Qed.

Lemma body_i ch st : s_i (body cfg palette ch st) = s_i st.
Proof.
  destruct (body_spec ch st); simpl; try done.
  unfold open_region. by destruct (resolve_color _ _ _) as [[??]?].
Qed.

Lemma step_i ch st : s_i (step cfg palette ch st) = S (s_i st).
Proof. unfold step. simpl. by rewrite body_i. Qed.

Lemma loop_i content st :
  s_i (loop cfg palette content st) = s_i st + length content.
Proof.
  revert st. induction content as [|ch rest IH]; intros st; simpl; [lia|].
  rewrite IH, step_i. lia.
Qed.

Lemma scan_i seed content : s_i (scan cfg palette seed content) = length content.
Proof. unfold scan. by rewrite loop_i. Qed.

Lemma drain_app eof stack rs :
  drain eof stack rs = rs ++ map (eof_range eof) stack.
Proof.
  revert rs. induction stack as [|o stack IH]; intros rs; simpl.
  - by rewrite app_nil_r.
  - by rewrite IH, <- app_assoc.
Qed.

Lemma step_plain ch st :
  symbolMap cfg !! [ch] = None → ch ≠ NEWLINE →
  step cfg palette ch st = next_i (bump st).
Proof.
  intros Hs Hn. unfold step.
  destruct (body_spec ch st); congruence.
Qed.

Lemma step_newline st :
  symbolMap cfg !! [NEWLINE] = None →
  step cfg palette NEWLINE st = next_i (set_cursor (s_line st + 1) 0 st).
Proof.
  intros Hs. unfold step.
  destruct (body_spec NEWLINE st); congruence.
Qed.

Lemma step_open ch spec st :
  symbolMap cfg !! [ch] = Some (Obj spec) → top_is (s_stack st) ch = false →
  step cfg palette ch st = next_i (bump (open_region palette ch spec st)).
Proof.
  intros Hs Htop. unfold step.
  destruct (body_spec ch st) as [| ? top rest ? Hst Hsym | | |];
    simplify_eq; [|done].
  rewrite Hst in Htop. simpl in Htop. by rewrite bool_decide_true in Htop.
Qed.

Lemma step_close ch spec top rest st :
  symbolMap cfg !! [ch] = Some (Obj spec) →
  s_stack st = top :: rest → o_symbol top = ch →
  step cfg palette ch st = next_i (bump (close_region ch top rest st)).
Proof.
  intros Hs Hst Hsym. unfold step.
  destruct (body_spec ch st) as [| ? top' rest' ? Hst' Hsym' | ? ? Htop | |];
    try congruence.
  rewrite Hst in Htop. simpl in Htop. by rewrite bool_decide_true in Htop.
Qed.

End Body.

Lemma annotate_ranges content cfg palette seed :
  ranges (annotate content cfg palette seed) =
  s_ranges (scan cfg palette seed content) ++
  map (eof_range (eofPos cfg palette seed content))
      (s_stack (scan cfg palette seed content)).
Proof. unfold annotate. simpl. by rewrite drain_app. Qed.

(* ===================================================================== *)
(** ** The stack rule                                                     *)
(* ===================================================================== *)

Section StackRule.

Context (cfg : Config) (palette : option (list string)).

Lemma configured_lookup ch :
  configured cfg ch = true ↔ ∃ spec, symbolMap cfg !! [ch] = Some (Obj spec).
Proof.
  unfold configured. destruct (symbolMap cfg !! [ch]) as [[|spec]|]; split;
    try done; try (intros [? ?]; done). eauto.
Qed.

Lemma top_is_true stack ch :
  top_is stack ch = true ↔ ∃ top rest, stack = top :: rest ∧ o_symbol top = ch.
Proof.
  destruct stack as [|top rest]; simpl.
  - split; [done|]. by intros (?&?&?&?).
  - rewrite bool_decide_eq_true. split; [eauto|]. by intros (?&?&[= -> ->]&?).
Qed.

(** A configured character met with its symbol on top of the stack. *)
Lemma step_closes ch st :
  configured cfg ch = true → top_is (s_stack st) ch = true →
  closes ch st (step cfg palette ch st).
Proof.
  intros [spec Hs]%configured_lookup Htop.
  unfold step. destruct (body_spec cfg palette ch st); simplify_eq.
  - exists top, rest. by simpl.
  - congruence.
Qed.

(** A configured character met otherwise. *)
Lemma step_opens ch st spec :
  symbolMap cfg !! [ch] = Some (Obj spec) → top_is (s_stack st) ch = false →
  s_stack (step cfg palette ch st) =
    {| o_symbol := ch; o_color := (resolve_color palette spec st).1.1;
       o_start := cursor st |} :: s_stack st ∧
  s_ranges (step cfg palette ch st) = s_ranges st.
Proof.
  intros Hs Htop.
  unfold step. destruct (body_spec cfg palette ch st) as [| ? top rest ? Hst Hsym | | |];
    simplify_eq.
  - rewrite Hst in Htop. simpl in Htop. by rewrite bool_decide_true in Htop.
  - simpl. by rewrite open_region_stack, open_region_ranges.
Qed.

Lemma closes_top ch st st' : closes ch st st' → top_is (s_stack st) ch = true.
Proof. intros (top&rest&?&?&_). apply top_is_true. eauto. Qed.

Lemma opens_not_closes ch st st' : opens ch st st' → closes ch st st' → False.
Proof.
  intros (c&Ho&_) (top&rest&Hst&_&Hc&_).
  rewrite Hst, Hc in Ho. apply (f_equal length) in Ho. simpl in Ho. lia.
Qed.

End StackRule.

(* ===================================================================== *)
(** ** What one iteration does to [ranges] and [stack]                    *)
(* ===================================================================== *)

Section Effect.

Context (cfg : Config) (palette : option (list string)).

Lemma step_effect_spec ch st :
  step_effect cfg palette ch st (step cfg palette ch st).
Proof.
  destruct (configured cfg ch) eqn:Hc.
  - destruct (top_is (s_stack st) ch) eqn:Htop.
    + apply eff_close; [done..|]. by apply step_closes.
    + pose proof Hc as [spec Hs]%configured_lookup.
      destruct (step_opens cfg palette ch st spec Hs Htop).
      by eapply eff_open.
  - apply eff_inert; [done|..]; unfold step, configured in *;
      destruct (body_spec cfg palette ch st) as [Hs|? ? ? Hs|? Hs|Hs ?|Hs ?];
      rewrite Hs in Hc; done.
Qed.

(** Induction along the scan with the effect of each iteration at hand. *)
Lemma scan_effect_ind seed (P : list N → ScanState → Prop) :
  P [] (initial seed) →
  (∀ pre ch st st',
     st = scan cfg palette seed pre → s_i st = length pre →
     s_i st' = S (length pre) →
     step_effect cfg palette ch st st' → P pre st → P (pre ++ [ch]) st') →
  ∀ content, P content (scan cfg palette seed content).
Proof.
  intros H0 Hstep. apply scan_ind; [done|].
  intros pre ch HP.
  eapply Hstep; [done|apply scan_i| |apply step_effect_spec|done].
  by rewrite step_i, scan_i.
Qed.

End Effect.

(* ===================================================================== *)
(** ** Invariants of the scan                                             *)
(* ===================================================================== *)

Section Invariants.

Context (cfg : Config) (palette : option (list string)).

Lemma scan_inv_step ch st st' :
  s_i st' = S (s_i st) → step_effect cfg palette ch st st' →
  scan_inv st → scan_inv st'.
Proof.
  intros Hi Heff [Hr Hrs Hs Hss].
  assert (Hr' : Forall (λ r, open r = None ∧ start_index r < end_index r ∧
                             end_index r < s_i st') (s_ranges st)).
  { eapply Forall_impl; [done|]. simpl. intros r (?&?&?). rewrite Hi. auto with lia. }
  assert (Hs' : Forall (λ o, entry_index o < s_i st') (s_stack st)).
  { eapply Forall_impl; [done|]. simpl. intros o ?. rewrite Hi. lia. }
  destruct Heff as [_ Er Es | _ _ (top&rest&Est&_&Es&Er) | spec _ _ _ Es Er].
  - split; by rewrite ?Er, ?Es.
  - rewrite Est in Hs, Hs', Hss. simpl in Hss.
    apply Forall_cons in Hs as [Htop _]. apply Forall_cons in Hs' as [_ Hs'].
    apply StronglySorted_cons in Hss as [_ Hss].
    split; rewrite ?Er, ?Es; [|  |done..].
    + apply Forall_app. split; [done|]. apply Forall_singleton. simpl.
      unfold start_index, end_index, entry_index in *. simpl. rewrite Hi. auto with lia.
    + rewrite map_app. apply StronglySorted_app_2.
      * intros x1 x2 (r&->&Hin)%list_elem_of_fmap ->%list_elem_of_singleton.
        rewrite Forall_forall in Hr. destruct (Hr r Hin) as (_&_&?). done.
      * done.
      * simpl. repeat constructor.
  - split; rewrite ?Er, ?Es; [done..| |].
    + apply Forall_cons. split; [|done]. unfold entry_index. simpl. lia.
    + simpl. apply StronglySorted_cons. split; [|done].
      apply Forall_fmap. eapply Forall_impl; [exact Hs|]. simpl.
      intros o Ho. unfold entry_index in *. simpl. lia.
Qed.

Lemma scan_inv_scan seed content : scan_inv (scan cfg palette seed content).
Proof.
  revert content. apply scan_effect_ind.
  - split; simpl; constructor.
  - intros pre ch st st' _ Hi Hi' Heff Hinv.
    eapply scan_inv_step; [|done..]. by rewrite Hi, Hi'.
Qed.

End Invariants.

(* ===================================================================== *)
(** ** Openings and ranges                                                *)
(* ===================================================================== *)

Section Openings.

Context (cfg : Config) (palette : option (list string)).

Lemma opened_at_step ch st :
  opened_at (step cfg palette ch st) ≡ₚ
  opened_at st ++ (if is_opening cfg st ch then [s_i st] else []).
Proof.
  unfold opened_at, is_opening.
  destruct (step_effect_spec cfg palette ch st)
    as [Hc Er Es | Hc Htop (top&rest&Est&_&Es&Er) | spec Hc Htop _ Es Er];
    rewrite Hc, Er, Es, ?Htop; simpl.
  - by rewrite app_nil_r.
  - rewrite Est, map_app, app_nil_r, <- app_assoc. done.
  - unfold entry_index at 1. simpl.
    rewrite <- app_assoc. f_equiv. by rewrite <- Permutation_cons_append.
Qed.

Lemma loop_opened_at content st :
  opened_at (loop cfg palette content st) ≡ₚ
  opened_at st ++ openings_from cfg palette content st.
Proof.
  revert st. induction content as [|ch rest IH]; intros st; simpl.
  - by rewrite app_nil_r.
  - by rewrite IH, opened_at_step, <- app_assoc.
Qed.

Lemma openings_from_bound content st :
  Forall (λ n, s_i st ≤ n) (openings_from cfg palette content st) ∧
  NoDup (openings_from cfg palette content st).
Proof.
  revert st. induction content as [|ch rest IH]; intros st; simpl.
  - split; constructor.
  - destruct (IH (step cfg palette ch st)) as [Hb Hnd].
    rewrite step_i in Hb.
    assert (Hb' : Forall (λ n, s_i st ≤ n)
                    (openings_from cfg palette rest (step cfg palette ch st))).
    { eapply Forall_impl; [done|]. simpl. lia. }
    destruct (is_opening cfg st ch); simpl; [|done].
    split; [by constructor|]. constructor; [|done].
    rewrite Forall_forall in Hb. intros Hin%Hb. lia.
Qed.

End Openings.

(* ===================================================================== *)
(** ** Counting per symbol                                                *)
(* ===================================================================== *)

Section Counting.

Context (cfg : Config) (palette : option (list string)).

Lemma count_step s ch st st' :
  configured cfg s = true → step_effect cfg palette ch st st' →
  2 * length (ranges_of s (s_ranges st')) + length (entries_of s (s_stack st')) =
  (if bool_decide (ch = s) then 1 else 0) +
  2 * length (ranges_of s (s_ranges st)) + length (entries_of s (s_stack st)).
Proof.
  intros Hs Heff. unfold ranges_of, entries_of.
  destruct Heff as [Hc Er Es | Hc Htop (top&rest&Est&Hsym&Es&Er) | spec Hc Htop _ Es Er];
    rewrite Er, Es.
  - rewrite bool_decide_false; [done|]. intros ->. congruence.
  - rewrite Est, filter_app, length_app.
    case_bool_decide as Heq.
    + subst s. rewrite filter_cons_True by done.
      rewrite (filter_cons_True _ _ rest) by done. simpl. lia.
    + rewrite filter_cons_False by (simpl; congruence).
      rewrite (filter_cons_False _ _ rest) by congruence. simpl. lia.
  - case_bool_decide as Heq.
    + subst s. rewrite filter_cons_True by done. simpl. lia.
    + rewrite filter_cons_False by (simpl; congruence). simpl. lia.
Qed.

(** Every occurrence of a configured symbol either opens a region that is
    still on the stack or belongs to a pair that opened and closed one. *)
Lemma scan_count seed s content :
  configured cfg s = true →
  occurrences s content =
  2 * length (ranges_of s (s_ranges (scan cfg palette seed content))) +
  length (entries_of s (s_stack (scan cfg palette seed content))).
Proof.
  intros Hs. revert content.
  apply (scan_effect_ind cfg palette seed (λ content st,
    occurrences s content =
    2 * length (ranges_of s (s_ranges st)) + length (entries_of s (s_stack st))));
    [done|].
  intros pre ch st st' _ _ _ Heff IH.
  rewrite (count_step s ch st st' Hs Heff), <- Nat.add_assoc, <- IH.
  unfold occurrences. rewrite filter_app, length_app.
  case_bool_decide as Heq.
  - rewrite filter_cons_True by done. simpl. lia.
  - rewrite filter_cons_False by done. simpl. lia.
Qed.

Lemma ranges_of_eof s eof stack :
  ranges_of s (map (eof_range eof) stack) = map (eof_range eof) (entries_of s stack).
Proof.
  unfold ranges_of, entries_of.
  induction stack as [|o stack IH]; [done|]. simpl.
  destruct (decide (o_symbol o = s)) as [Ho|Ho].
  - rewrite !filter_cons_True by done. simpl. by rewrite IH.
  - rewrite !filter_cons_False by done. done.
Qed.

Lemma unclosed_of_eof s eof stack :
  unclosed_of s (map (eof_range eof) stack) = map (eof_range eof) (entries_of s stack).
Proof.
  unfold unclosed_of, entries_of.
  induction stack as [|o stack IH]; [done|]. simpl.
  destruct (decide (o_symbol o = s)) as [Ho|Ho].
  - rewrite !filter_cons_True by done. simpl. by rewrite IH.
  - rewrite !filter_cons_False by (simpl; tauto). done.
Qed.

Lemma unclosed_of_closed s rs :
  Forall (λ r, open r = None) rs → unclosed_of s rs = [].
Proof.
  unfold unclosed_of. induction 1 as [|r rs Hr _ IH]; [done|].
  rewrite filter_cons_False; [done|]. rewrite Hr. by intros [_ ?].
Qed.

Lemma annotate_unclosed_of content seed s :
  unclosed_of s (ranges (annotate content cfg palette seed)) =
  map (eof_range (eofPos cfg palette seed content))
      (entries_of s (s_stack (scan cfg palette seed content))).
Proof.
  rewrite annotate_ranges. unfold unclosed_of at 1. rewrite filter_app.
  fold (unclosed_of s (s_ranges (scan cfg palette seed content))).
  rewrite unclosed_of_closed.
  - apply unclosed_of_eof.
  - destruct (scan_inv_scan cfg palette seed content) as [Hr _ _ _].
    eapply Forall_impl; [done|]. simpl. tauto.
Qed.

End Counting.

(* ===================================================================== *)
(** ** Well-nested texts                                                  *)
(* ===================================================================== *)

Lemma toggle_reduced ch l : reduced l → reduced (toggle ch l).
Proof.
  destruct l as [|t rest]; simpl; [done|].
  case_bool_decide as Heq.
  - destruct rest; simpl; tauto.
  - intros H. simpl. split; [congruence|done].
Qed.

Lemma toggle_toggle ch l : reduced l → toggle ch (toggle ch l) = l.
Proof.
  destruct l as [|t rest]; simpl.
  - by rewrite bool_decide_true.
  - case_bool_decide as Heq.
    + subst t. destruct rest as [|t2 r2]; simpl; [done|].
      intros [Hne _]. by rewrite bool_decide_false by congruence.
    + intros _. simpl. by rewrite bool_decide_true.
Qed.

Section Nesting.

Context (cfg : Config) (palette : option (list string)).

Lemma shape_step ch st :
  shape (step cfg palette ch st) =
  if configured cfg ch then toggle ch (shape st) else shape st.
Proof.
  unfold shape.
  destruct (step_effect_spec cfg palette ch st)
    as [Hc Er Es | Hc Htop (top&rest&Est&Hsym&Es&Er) | spec Hc Htop _ Es Er];
    rewrite Hc, Es.
  - done.
  - rewrite Est. simpl. by rewrite bool_decide_true.
  - simpl. destruct (s_stack st) as [|top rest]; simpl in *; [done|].
    by rewrite Htop.
Qed.

(** A well-nested text leaves the symbols of the stack as it found them. *)
Lemma loop_nested w :
  Nested cfg w →
  ∀ st, reduced (shape st) → shape (loop cfg palette w st) = shape st.
Proof.
  induction 1 as [|c w Hc _ IH|s w1 w2 Hs _ IH1 _ IH2]; intros st Hred; simpl.
  - done.
  - rewrite IH; rewrite shape_step, Hc; done.
  - assert (Hred1 : reduced (shape (step cfg palette s st))).
    { rewrite shape_step, Hs. by apply toggle_reduced. }
    rewrite loop_app. simpl.
    assert (H1 : shape (step cfg palette s
                   (loop cfg palette w1 (step cfg palette s st))) = shape st).
    { rewrite shape_step, Hs, IH1 by done.
      rewrite shape_step, Hs. by apply toggle_toggle. }
    rewrite IH2; rewrite H1; done.
Qed.

Lemma scan_nested seed content :
  Nested cfg content → s_stack (scan cfg palette seed content) = [].
Proof.
  intros Hn. pose proof (loop_nested content Hn (initial seed) I) as H.
  unfold shape in H. simpl in H. by apply fmap_nil_inv in H.
Qed.

End Nesting.

(* ===================================================================== *)
(** ** The index drawn by pickColor                                       *)
(* ===================================================================== *)

Lemma fround_bounds (u n : Z) :
  (0 ≤ u < 2 ^ 32 → 0 < n → 0 ≤ Num.fround (u * n) < n * 2 ^ 32)%Z.
Proof.
  intros Hu Hn. unfold Num.fround.
  assert (Hp : (0 ≤ u * n ≤ n * 2 ^ 32 - n)%Z) by nia.
  destruct (Z.ltb_spec (u * n) (2 ^ 53)) as [Hlt|Hge]; [lia|].
  set (p := (u * n)%Z) in *.
  assert (Hlog : (53 ≤ Z.log2 p)%Z) by (apply Z.log2_le_pow2; lia).
  destruct (Z.log2_spec p) as [Hlo _]; [lia|].
  set (e := (Z.log2 p - 52)%Z).
  replace (Z.log2 p) with (e + 52)%Z in Hlo by lia.
  rewrite Z.pow_add_r in Hlo by lia.
  assert (HX : (0 < 2 ^ e)%Z) by (apply Z.pow_pos_nonneg; lia).
  set (X := (2 ^ e)%Z) in *.
  pose proof (Z.div_mod p X ltac:(lia)) as Hdm.
  pose proof (Z.mod_pos_bound p X HX) as Hr.
  assert (Hq : (0 ≤ p / X)%Z) by (apply Z.div_pos; lia).
  set (q := (p / X)%Z) in *. set (r := (p mod X)%Z) in *.
  assert (HXn : (X * 2 ^ 20 < n)%Z) by lia.
  destruct (Z.ltb_spec (2 * r) X); [nia|].
  destruct (Z.ltb_spec X (2 * r)); [nia|].
  destruct (Z.even q); nia.
Qed.

(** The number returned by the generator is in [[0, 1)]. *)
Lemma rand_call_range t : (0 ≤ (rand_call t).2 < 2 ^ 32)%Z.
Proof.
  unfold rand_call, Num.ushr at 1, Num.toUint32. simpl snd.
  rewrite Z.shiftr_0_r. apply Z.mod_pos_bound. lia.
Qed.

(** The index [Math.floor(rand() * arr.length)] is within [arr]. *)
Lemma draw_index_lt t (n : nat) :
  0 < n →
  Z.to_nat (Num.fround ((rand_call t).2 * Z.of_nat n) / 2 ^ 32) < n.
Proof.
  intros Hn.
  destruct (fround_bounds (rand_call t).2 (Z.of_nat n)) as [H0 H1];
    [apply rand_call_range|lia|].
  assert ((Num.fround ((rand_call t).2 * Z.of_nat n) / 2 ^ 32 < Z.of_nat n)%Z)
    by (apply Z.div_lt_upper_bound; lia).
  assert ((0 ≤ Num.fround ((rand_call t).2 * Z.of_nat n) / 2 ^ 32)%Z)
    by (apply Z.div_pos; lia).
  lia.
Qed.

(** [pickColor] returns a colour of the palette, or the fallback; never
    [undefined]. *)
Lemma pickColor_defined t palette used :
  ∃ c, (pickColor t palette used).1.1 = Some c ∧
       (c = fallback ∨ ∃ pal, palette = Some pal ∧ c ∈ pal).
Proof.
  unfold pickColor.
  destruct palette as [[|c0 pal]|]; [by exists fallback; auto..| |by exists fallback; auto].
  set (unused := filter _ (c0 :: pal)).
  set (arr := match unused with [] => c0 :: pal | _ => unused end).
  assert (Harr : 0 < length arr ∧ arr ⊆ c0 :: pal).
  { unfold arr. destruct unused as [|u us] eqn:Hu.
    - simpl. split; [lia|done].
    - split; [simpl; lia|]. rewrite <- Hu. unfold unused.
      intros x Hx. by apply list_elem_of_filter in Hx as [_ ?]. }
  destruct Harr as [Hlen Hsub].
  pose proof (draw_index_lt t (length arr) Hlen) as Hidx.
  destruct (rand_call t) as [t' u]. simpl in *.
  apply lookup_lt_is_Some_2 in Hidx as [c Hc].
  exists c. split; [done|]. right. exists (c0 :: pal). split; [done|].
  apply Hsub. by eapply list_elem_of_lookup_2.
Qed.

Lemma pickColor_empty t palette used :
  palette = None ∨ palette = Some [] →
  pickColor t palette used = (Some fallback, t, used).
Proof. by intros [-> | ->]. Qed.

(* ===================================================================== *)
(** ** Colours and symbols of the regions                                 *)
(* ===================================================================== *)

Section Colours.

Context (cfg : Config) (palette : option (list string)).

(** A property of symbol and colour that every opening establishes holds of
    every entry of the stack and of every emitted range. *)
Lemma scan_colours seed (Q : N → jscolor → Prop) :
  (∀ ch spec st, symbolMap cfg !! [ch] = Some (Obj spec) →
                 Q ch (resolve_color palette spec st).1.1) →
  ∀ content,
    Forall (λ r, Q (symbol r) (color r)) (s_ranges (scan cfg palette seed content)) ∧
    Forall (λ o, Q (o_symbol o) (o_color o)) (s_stack (scan cfg palette seed content)).
Proof.
  intros HQ.
  apply (scan_effect_ind cfg palette seed (λ _ st,
    Forall (λ r, Q (symbol r) (color r)) (s_ranges st) ∧
    Forall (λ o, Q (o_symbol o) (o_color o)) (s_stack st)));
    [by split; constructor|].
  intros pre c st st' _ _ _ Heff [IHr IHs].
  destruct Heff as [_ Er Es | _ _ (top&rest&Est&Hsym&Es&Er) | spec _ _ Hs Es Er];
    rewrite Er, Es.
  - done.
  - rewrite Est in IHs. apply Forall_cons in IHs as [Htop IHs].
    split; [|done]. apply Forall_app. split; [done|].
    apply Forall_singleton. simpl. by rewrite <- Hsym.
  - split; [done|]. apply Forall_cons. split; [|done]. simpl. by apply HQ.
Qed.

Lemma annotate_colours content seed (Q : N → jscolor → Prop) :
  (∀ ch spec st, symbolMap cfg !! [ch] = Some (Obj spec) →
                 Q ch (resolve_color palette spec st).1.1) →
  Forall (λ r, Q (symbol r) (color r)) (ranges (annotate content cfg palette seed)).
Proof.
  intros HQ. destruct (scan_colours seed Q HQ content) as [Hr Hs].
  rewrite annotate_ranges. apply Forall_app. split; [done|].
  apply Forall_fmap. eapply Forall_impl; [exact Hs|]. done.
Qed.

Lemma resolve_color_defined spec st :
  is_Some (resolve_color palette spec st).1.1.
Proof.
  unfold resolve_color. repeat case_bool_decide; simpl.
  - destruct (spec_color spec) as [[|??]|]; eauto.
  - destruct (pickColor_defined (s_rand st) palette (s_used st)) as (c&->&_). eauto.
  - eauto.
Qed.

Lemma resolve_color_empty_palette spec st :
  palette = None ∨ palette = Some [] → kind spec = Some "random"%string →
  (resolve_color palette spec st).1.1 = Some fallback.
Proof.
  intros Hp Hk. unfold resolve_color. rewrite Hk. simpl.
  by rewrite pickColor_empty.
Qed.

Lemma resolve_color_fallback spec st :
  fallback_spec spec → (resolve_color palette spec st).1.1 = Some fallback.
Proof.
  unfold resolve_color. intros [[Hk Hc]|[Hk1 Hk2]].
  - rewrite bool_decide_true by done. by rewrite Hc.
  - by rewrite !bool_decide_false by done.
Qed.

(** Characters that are not configured symbols leave [ranges] and [stack]
    as they are. *)
Lemma loop_no_symbols content st :
  Forall (λ ch, configured cfg ch = false) content →
  s_ranges (loop cfg palette content st) = s_ranges st ∧
  s_stack (loop cfg palette content st) = s_stack st.
Proof.
  intros Hall. revert st. induction Hall as [|ch rest Hch _ IH]; intros st; simpl; [done|].
  destruct (IH (step cfg palette ch st)) as [-> ->].
  destruct (step_effect_spec cfg palette ch st) as [_ Er Es | Hc _ _ | spec Hc _ _ _ _];
    [done|congruence..].
Qed.

Lemma annotate_no_symbols content seed :
  Forall (λ ch, configured cfg ch = false) content →
  annotate content cfg palette seed = {| ranges := [] |}.
Proof.
  intros Hall. unfold annotate, scan.
  by destruct (loop_no_symbols content (initial seed) Hall) as [-> ->].
Qed.

End Colours.

Lemma configured_empty cfg ch :
  symbols cfg = None ∨ symbols cfg = Some ∅ → configured cfg ch = false.
Proof. unfold configured, symbolMap. by intros [-> | ->]. Qed.

(* ===================================================================== *)
(** ** Determinism                                                        *)
(* ===================================================================== *)

(** The seed is read through [seed >>> 0] only. *)
Lemma annotate_seed_uint32 content cfg palette seed1 seed2 :
  Num.toUint32 seed1 = Num.toUint32 seed2 →
  annotate content cfg palette seed1 = annotate content cfg palette seed2.
Proof. intros H. unfold annotate, scan, initial. by rewrite H. Qed.

(** C1. [annotate] is a function of [(text, symbols, palette, seed)] and of
    nothing else: two calls on equal inputs return equal results, the same
    ranges with the same coordinates and colours in the same order. *)
Theorem annotate_deterministic
    (content1 content2 : list N) (cfg1 cfg2 : Config)
    (palette1 palette2 : option (list string)) (seed1 seed2 : Z) :
  content1 = content2 → cfg1 = cfg2 → palette1 = palette2 → seed1 = seed2 →
  annotate content1 cfg1 palette1 seed1 = annotate content2 cfg2 palette2 seed2 ∧
  ranges (annotate content1 cfg1 palette1 seed1) =
    ranges (annotate content2 cfg2 palette2 seed2).
Proof. by intros -> -> -> ->. Qed.

Lemma annotate_deterministic_witness :
  annotate odd_text buildDefaultConfig (Some defaultPalette) 42 =
  annotate odd_text
    {| symbols := Some (
         <[ [CIRCLE] := Obj {| kind := Some "random"%string; spec_color := None |} ]>
         (<[ [SQUARE] := Obj {| kind := Some "random"%string; spec_color := None |} ]>
         (<[ [TRIANGLE] := Obj {| kind := Some "onoff"%string;
                                  spec_color := Some "#FFE26A"%string |} ]> ∅))) |}
    (Some defaultPalette) 42.
Proof.
  apply (annotate_deterministic odd_text odd_text buildDefaultConfig _
           (Some defaultPalette) (Some defaultPalette) 42 42);
    vm_compute; reflexivity.
Defined.

(* ===================================================================== *)
(** ** The stack rule at every occurrence                                 *)
(* ===================================================================== *)

(** C2. When the scan of any text reaches a character that [symbols] maps to
    a SymbolSpec, in the state [scan pre] left by the characters [pre]
    before it, it closes a region exactly when the stack is non-empty with
    that character as the symbol of its top entry: the entry is popped and
    a range is emitted with the entry's start and colour, ending at the
    current position (whose offset is the number of characters before).
    Every other occurrence opens a region, pushed on the stack. One of the
    two always happens: there is no error case. *)
Theorem annotate_stack_rule cfg palette seed (pre : list N) (ch : N) :
  configured cfg ch = true →
  cursor (scan cfg palette seed pre) =
    {| line := s_line (scan cfg palette seed pre);
       col := s_col (scan cfg palette seed pre);
       index := length pre |} ∧
  (closes ch (scan cfg palette seed pre) (scan cfg palette seed (pre ++ [ch]))
     ↔ top_is (s_stack (scan cfg palette seed pre)) ch = true) ∧
  (opens ch (scan cfg palette seed pre) (scan cfg palette seed (pre ++ [ch]))
     ↔ top_is (s_stack (scan cfg palette seed pre)) ch = false) ∧
  (closes ch (scan cfg palette seed pre) (scan cfg palette seed (pre ++ [ch])) ∨
   opens ch (scan cfg palette seed pre) (scan cfg palette seed (pre ++ [ch]))).
Proof.
  intros Hc. rewrite scan_snoc.
  set (st := scan cfg palette seed pre).
  assert (Hopen : top_is (s_stack st) ch = false → opens ch st (step cfg palette ch st)).
  { intros Htop. apply configured_lookup in Hc as [spec Hs].
    destruct (step_opens cfg palette ch st spec Hs Htop) as [H1 H2].
    by eexists. }
  split; [|split; [|split]].
  - unfold cursor. f_equal. apply scan_i.
  - split; [apply closes_top|by apply step_closes].
  - split; [|done].
    intros Ho. destruct (top_is (s_stack st) ch) eqn:Htop; [|done].
    exfalso. eapply opens_not_closes; [done|]. by apply step_closes.
  - destruct (top_is (s_stack st) ch) eqn:Htop.
    + left. by apply step_closes.
    + right. by apply Hopen.
Qed.

Lemma annotate_stack_rule_witness :
  closes TRIANGLE
    (scan buildDefaultConfig (Some defaultPalette) 0 annotate_stack_rule_witness_text)
    (scan buildDefaultConfig (Some defaultPalette) 0
       (annotate_stack_rule_witness_text ++ [TRIANGLE])).
Proof.
  apply (annotate_stack_rule buildDefaultConfig (Some defaultPalette) 0
           annotate_stack_rule_witness_text TRIANGLE); vm_compute; reflexivity.
Defined.

(* ===================================================================== *)
(** ** Every opening yields a range                                       *)
(* ===================================================================== *)

(** C3. The ranges of the output are as many as the opening occurrences of
    the scan, and they are the regions opened, each once: their start
    offsets are, up to order, the offsets of the opening occurrences, which
    are pairwise distinct. Closed ranges and ranges left open at end of
    input are counted alike. *)
Theorem annotate_count_openings content cfg palette seed :
  length (ranges (annotate content cfg palette seed)) =
    length (openings cfg palette seed content) ∧
  map start_index (ranges (annotate content cfg palette seed)) ≡ₚ
    openings cfg palette seed content ∧
  NoDup (openings cfg palette seed content).
Proof.
  assert (Hp : map start_index (ranges (annotate content cfg palette seed)) ≡ₚ
               openings cfg palette seed content).
  { rewrite annotate_ranges, map_app, map_map. unfold openings, scan.
    pose proof (loop_opened_at cfg palette content (initial seed)) as H.
    unfold opened_at in H. simpl in H. exact H. }
  split; [|split].
  - apply Permutation_length in Hp. by rewrite length_map in Hp.
  - done.
  - apply openings_from_bound.
Qed.

(* ===================================================================== *)
(** ** Order of the output                                                *)
(* ===================================================================== *)

(** C4. The output is the list of the ranges closed during the scan, then
    one range for each entry left on the stack, taken from the top down.
    The former carry no [open] property and come in the order of their
    closing delimiters; the latter carry [open: true], end at the final
    cursor position, whose offset is the length of the text, and come from
    the most recently opened to the oldest. *)
Theorem annotate_order content cfg palette seed :
  ranges (annotate content cfg palette seed) =
    s_ranges (scan cfg palette seed content) ++
    map (eof_range (eofPos cfg palette seed content))
        (s_stack (scan cfg palette seed content)) ∧
  Forall (λ r, open r = None ∧ end_index r < length content)
         (s_ranges (scan cfg palette seed content)) ∧
  StronglySorted lt (map end_index (s_ranges (scan cfg palette seed content))) ∧
  Forall (λ r, open r = Some true ∧ end_ r = eofPos cfg palette seed content)
         (map (eof_range (eofPos cfg palette seed content))
              (s_stack (scan cfg palette seed content))) ∧
  StronglySorted gt
    (map start_index
         (map (eof_range (eofPos cfg palette seed content))
              (s_stack (scan cfg palette seed content)))) ∧
  eofPos cfg palette seed content =
    {| line := s_line (scan cfg palette seed content);
       col := s_col (scan cfg palette seed content);
       index := length content |}.
Proof.
  destruct (scan_inv_scan cfg palette seed content) as [Hr Hrs Hs Hss].
  rewrite scan_i in Hr.
  split; [apply annotate_ranges|]. split; [|split; [done|split; [|split; [|done]]]].
  - eapply Forall_impl; [done|]. simpl. tauto.
  - apply Forall_fmap, Forall_true. done.
  - by rewrite map_map.
Qed.

(* ===================================================================== *)
(** ** Unclosed ranges                                                    *)
(* ===================================================================== *)

(** C5, as stated, fails: in [△▢△▢△] under the default configuration the
    triangle occurs three times and never finds itself on top of the stack,
    so that three of its ranges are left open, not one. *)
Lemma unclosed_exactly_one_counterexample :
  configured buildDefaultConfig TRIANGLE = true ∧
  Nat.Odd (occurrences TRIANGLE odd_text) ∧
  length (unclosed_of TRIANGLE
            (ranges (annotate odd_text buildDefaultConfig (Some defaultPalette) 0))) = 3 ∧
  length (unclosed_of TRIANGLE
            (ranges (annotate odd_text buildDefaultConfig (Some defaultPalette) 0))) ≠ 1.
Proof.
  split; [by vm_compute|]. split; [by exists 1|].
  assert (H : length (unclosed_of TRIANGLE
            (ranges (annotate odd_text buildDefaultConfig (Some defaultPalette) 0))) = 3)
    by (vm_compute; reflexivity).
  split; [done|]. rewrite H. discriminate.
Qed.

(** C5, amended. When a configured symbol occurs an odd number of times in
    the text, the output holds an odd number of unclosed ranges for it; when
    it does, or when the symbol is left dangling, there is at least one.
    Every unclosed range ends at the end-of-file position, whose offset is
    the length of the text. *)
Theorem unclosed_at_eof content cfg palette seed (s : N) :
  configured cfg s = true →
  (Nat.Odd (occurrences s content) →
   Nat.Odd (length (unclosed_of s (ranges (annotate content cfg palette seed))))) ∧
  (Nat.Odd (occurrences s content) ∨ dangling cfg palette seed content s →
   1 ≤ length (unclosed_of s (ranges (annotate content cfg palette seed)))) ∧
  Forall (λ r, open r = Some true →
               end_ r = eofPos cfg palette seed content ∧
               index (end_ r) = length content)
         (ranges (annotate content cfg palette seed)).
Proof.
  intros Hs.
  pose proof (scan_count cfg palette seed s content Hs) as Hcount.
  rewrite annotate_unclosed_of, length_map.
  assert (Hodd : Nat.Odd (occurrences s content) →
    Nat.Odd (length (entries_of s (s_stack (scan cfg palette seed content))))).
  { intros [m Hm]. rewrite Hcount in Hm.
    exists (m - length (ranges_of s (s_ranges (scan cfg palette seed content)))). lia. }
  split; [done|]. split.
  - intros [[m Hm]%Hodd | (o&Hin&Ho)]; [lia|].
    assert (o ∈ entries_of s (s_stack (scan cfg palette seed content))) as Hin'
      by (by apply list_elem_of_filter).
    destruct (entries_of s _); [by apply not_elem_of_nil in Hin'|simpl; lia].
  - rewrite annotate_ranges. apply Forall_app. split.
    + destruct (scan_inv_scan cfg palette seed content) as [Hr _ _ _].
      eapply Forall_impl; [done|]. simpl. intros r (Hn&_) Ho. congruence.
    + apply Forall_fmap, Forall_true. done.
Qed.

Lemma unclosed_at_eof_witness :
  Nat.Odd (length (unclosed_of TRIANGLE
    (ranges (annotate [TRIANGLE; 97; TRIANGLE; TRIANGLE]%N buildDefaultConfig None 7)))).
Proof.
  apply (unclosed_at_eof [TRIANGLE; 97; TRIANGLE; TRIANGLE]%N buildDefaultConfig None 7 TRIANGLE).
  - vm_compute. reflexivity.
  - exists 1. vm_compute. reflexivity.
Defined.

(* ===================================================================== *)
(** ** The line and column example                                        *)
(* ===================================================================== *)

(** C6, as stated, fails: under the default configuration the output for
    ["a\n△b△"] has no range that starts at column 1 and ends at column 3. *)
Lemma example_columns_counterexample :
  ¬ ∃ r, r ∈ ranges (annotate example_text buildDefaultConfig (Some defaultPalette) 0) ∧
         symbol r = TRIANGLE ∧
         line (start r) = 1 ∧ col (start r) = 1 ∧
         line (end_ r) = 1 ∧ col (end_ r) = 3.
Proof.
  intros (r&Hin&_&_&Hcol&_).
  assert (Hrs : ranges (annotate example_text buildDefaultConfig (Some defaultPalette) 0) =
    [ {| symbol := TRIANGLE; color := Some "#FFE26A"%string;
         start := {| line := 1; col := 0; index := 2 |};
         end_ := {| line := 1; col := 2; index := 4 |}; open := None |} ])
    by (vm_compute; reflexivity).
  rewrite Hrs in Hin. apply list_elem_of_singleton in Hin. subst r. discriminate.
Qed.

(** C6, amended. When the triangle is a configured symbol and [a], the
    newline and [b] are not keys of [symbols], the output for ["a\n△b△"]
    is one closed triangle range with [start.line = 1], [start.col = 0],
    [end.line = 1] and [end.col = 2], from offset 2 to offset 4. *)
Theorem example_columns cfg palette seed :
  configured cfg TRIANGLE = true →
  symbolMap cfg !! [97%N] = None →
  symbolMap cfg !! [NEWLINE] = None →
  symbolMap cfg !! [98%N] = None →
  ∃ c, ranges (annotate example_text cfg palette seed) =
    [ {| symbol := TRIANGLE; color := c;
         start := {| line := 1; col := 0; index := 2 |};
         end_ := {| line := 1; col := 2; index := 4 |};
         open := None |} ].
Proof.
  intros [spec Hs]%configured_lookup Ha Hn Hb.
  unfold annotate, scan, example_text. simpl loop.
  rewrite (step_plain cfg palette 97 (initial seed) Ha) by done.
  rewrite (step_newline cfg palette _ Hn).
  set (st2 := next_i (set_cursor _ _ _)).
  rewrite (step_open cfg palette TRIANGLE spec st2 Hs) by done.
  unfold open_region.
  destruct (resolve_color palette spec st2) as [[c t] used].
  set (st3 := next_i (bump _)).
  rewrite (step_plain cfg palette 98 st3 Hb) by done.
  set (st4 := next_i (bump st3)).
  rewrite (step_close cfg palette TRIANGLE spec
             {| o_symbol := TRIANGLE; o_color := c; o_start := cursor st2 |} [] st4 Hs)
    by done.
  exists c. reflexivity.
Qed.

Lemma example_columns_witness :
  ∃ c, ranges (annotate example_text buildDefaultConfig (Some defaultPalette) 0) =
    [ {| symbol := TRIANGLE; color := c;
         start := {| line := 1; col := 0; index := 2 |};
         end_ := {| line := 1; col := 2; index := 4 |};
         open := None |} ].
Proof.
  apply (example_columns buildDefaultConfig (Some defaultPalette) 0);
    vm_compute; reflexivity.
Defined.

(* ===================================================================== *)
(** ** The cursor                                                         *)
(* ===================================================================== *)

(** C7, as stated, fails: with the newline configured as a delimiter, the
    scan of a text that is one newline stays on line 0 and moves to column
    1. *)
Lemma cursor_rule_counterexample :
  ¬ cursor_rule newline_config None 0 [] NEWLINE ∧
  s_line (scan newline_config None 0 [NEWLINE]) = 0 ∧
  s_col (scan newline_config None 0 [NEWLINE]) = 1.
Proof.
  split; [|by vm_compute].
  unfold cursor_rule. intros [_ H]. vm_compute in H. destruct H; discriminate.
Qed.

(** C7, amended. At every character the offset grows by exactly one. Unless
    [symbols] holds a falsy value for the character: a character that maps
    to a SymbolSpec, the newline included, leaves the line as it is and
    increments the column; a newline that is not a key of [symbols]
    increments the line and resets the column to 0; any other character
    increments the column. *)
Theorem cursor_advance cfg palette seed (pre : list N) (ch : N) :
  s_i (scan cfg palette seed pre) = length pre ∧
  s_i (scan cfg palette seed (pre ++ [ch])) = S (length pre) ∧
  (symbolMap cfg !! [ch] ≠ Some Falsy →
   if configured cfg ch || negb (bool_decide (ch = NEWLINE))
   then s_line (scan cfg palette seed (pre ++ [ch])) = s_line (scan cfg palette seed pre) ∧
        s_col (scan cfg palette seed (pre ++ [ch])) = s_col (scan cfg palette seed pre) + 1
   else s_line (scan cfg palette seed (pre ++ [ch])) = s_line (scan cfg palette seed pre) + 1 ∧
        s_col (scan cfg palette seed (pre ++ [ch])) = 0).
Proof.
  rewrite !scan_i, length_app. simpl.
  split; [done|]. split; [lia|].
  intros Hf. rewrite scan_snoc. unfold step, configured. simpl.
  destruct (body_spec cfg palette ch (scan cfg palette seed pre)) as [Hs|? ? ? Hs|? Hs|Hs ?|Hs ?];
    rewrite Hs; simpl; try done.
  - pose proof (open_region_cursor palette ch spec (scan cfg palette seed pre)) as Hc.
    injection Hc as -> -> _. done.
  - by rewrite bool_decide_true.
  - by rewrite bool_decide_false.
Qed.

Lemma cursor_advance_witness :
  s_line (scan buildDefaultConfig None 0 ([97; NEWLINE] ++ [TRIANGLE])%N) =
    s_line (scan buildDefaultConfig None 0 [97; NEWLINE]%N) ∧
  s_col (scan buildDefaultConfig None 0 ([97; NEWLINE] ++ [TRIANGLE])%N) =
    s_col (scan buildDefaultConfig None 0 [97; NEWLINE]%N) + 1.
Proof.
  apply (cursor_advance buildDefaultConfig None 0 [97; NEWLINE]%N TRIANGLE).
  vm_compute. discriminate.
Defined.

(* ===================================================================== *)
(** ** Well-nested texts close every range                                *)
(* ===================================================================== *)

(** C8. In a text whose configured delimiters pair up and nest, every range
    of the output is closed (none carries the [open] marker), and every
    configured symbol has half as many ranges as it has occurrences. *)
Theorem annotate_nested content cfg palette seed :
  Nested cfg content →
  Forall (λ r, open r = None) (ranges (annotate content cfg palette seed)) ∧
  ∀ s, configured cfg s = true →
    2 * length (ranges_of s (ranges (annotate content cfg palette seed))) =
    occurrences s content.
Proof.
  intros Hn.
  pose proof (scan_nested cfg palette seed content Hn) as Hst.
  rewrite annotate_ranges, Hst. simpl. rewrite app_nil_r. split.
  - destruct (scan_inv_scan cfg palette seed content) as [Hr _ _ _].
    eapply Forall_impl; [done|]. simpl. tauto.
  - intros s Hs. rewrite (scan_count cfg palette seed s content Hs), Hst. simpl. lia.
Qed.

Lemma nested_text_Nested : Nested buildDefaultConfig nested_text.
Proof.
  apply (Nested_pair _ TRIANGLE [120; SQUARE; 121; SQUARE; 122]%N []);
    [by vm_compute| |constructor].
  apply Nested_plain; [by vm_compute|].
  apply (Nested_pair _ SQUARE [121]%N [122]%N); [by vm_compute|..];
    (apply Nested_plain; [by vm_compute|constructor]).
Defined.

Lemma annotate_nested_witness :
  Forall (λ r, open r = None)
    (ranges (annotate nested_text buildDefaultConfig (Some defaultPalette) 0)) ∧
  ∀ s, configured buildDefaultConfig s = true →
    2 * length (ranges_of s
          (ranges (annotate nested_text buildDefaultConfig (Some defaultPalette) 0))) =
    occurrences s nested_text.
Proof.
  apply (annotate_nested nested_text buildDefaultConfig (Some defaultPalette) 0).
  exact nested_text_Nested.
Defined.

(* ===================================================================== *)
(** ** Totality and the empty cases                                       *)
(* ===================================================================== *)

Lemma annotate_well_formed content cfg palette seed :
  well_formed cfg content (annotate content cfg palette seed).
Proof.
  unfold well_formed.
  pose proof (annotate_colours cfg palette content seed
    (λ s c, configured cfg s = true ∧ is_Some c)) as HQ.
  destruct (scan_inv_scan cfg palette seed content) as [Hr _ Hs _].
  rewrite scan_i in Hr, Hs.
  assert (Hpos : Forall (λ r, start_index r < end_index r ≤ length content ∧
                              (open r = None ∨ open r = Some true))
                        (ranges (annotate content cfg palette seed))).
  { rewrite annotate_ranges. apply Forall_app. split.
    - eapply Forall_impl; [exact Hr|]. simpl. intros r (?&?&?). auto with lia.
    - apply Forall_fmap. eapply Forall_impl; [exact Hs|]. simpl.
      intros o Ho. unfold start_index, end_index, entry_index in *. simpl. auto with lia. }
  eapply Forall_impl.
  - apply Forall_and. split; [apply HQ|exact Hpos].
    intros ch spec st Hlook. split; [|apply resolve_color_defined].
    apply configured_lookup. eauto.
  - simpl. tauto.
Qed.

(** C9. [annotate] returns a well-formed result on every input. With an
    empty (or missing) palette [pickColor] returns the fallback colour,
    leaving generator and set untouched, and every range of a symbol of kind
    ['random'] has the fallback colour. The empty text yields no ranges,
    and so does an empty (or missing) symbol configuration. *)
Theorem annotate_total content cfg palette seed :
  (∃ res, annotate content cfg palette seed = res ∧ well_formed cfg content res) ∧
  (∀ t used, pickColor t None used = (Some fallback, t, used) ∧
             pickColor t (Some []) used = (Some fallback, t, used)) ∧
  (palette = None ∨ palette = Some [] →
   Forall (λ r, ∀ spec, symbolMap cfg !! [symbol r] = Some (Obj spec) →
                        kind spec = Some "random"%string → color r = Some fallback)
          (ranges (annotate content cfg palette seed))) ∧
  annotate [] cfg palette seed = {| ranges := [] |} ∧
  (symbols cfg = None ∨ symbols cfg = Some ∅ →
   annotate content cfg palette seed = {| ranges := [] |}).
Proof.
  split; [|split; [|split; [|split]]].
  - eexists. split; [done|]. apply annotate_well_formed.
  - done.
  - intros Hp.
    apply (annotate_colours cfg palette content seed
      (λ s c, ∀ spec, symbolMap cfg !! [s] = Some (Obj spec) →
                      kind spec = Some "random"%string → c = Some fallback)).
    intros ch spec st Hs spec' Hs' Hk. rewrite Hs in Hs'. injection Hs' as <-.
    by apply resolve_color_empty_palette.
  - done.
  - intros He. apply annotate_no_symbols, Forall_forall.
    intros ch _. by apply configured_empty.
Qed.

(* ===================================================================== *)
(** ** Symbols that resolve to the fallback colour                        *)
(* ===================================================================== *)

(** C10. A symbol configured with a SymbolSpec of kind ['onoff'] and no
    [color], or of a kind other than ['onoff'] and ['random'], follows the
    stack rule like any configured symbol: it closes the region on top of
    the stack when that region carries its symbol, and opens a region
    otherwise. The region it opens is pushed with the colour ['#CCCCCC'],
    and every range of the output for this symbol has that colour. *)
Theorem annotate_fallback_color content cfg palette seed (ch : N) (spec : SymbolSpec) :
  symbolMap cfg !! [ch] = Some (Obj spec) → fallback_spec spec →
  (∀ pre,
     (top_is (s_stack (scan cfg palette seed pre)) ch = true →
      closes ch (scan cfg palette seed pre) (scan cfg palette seed (pre ++ [ch]))) ∧
     (top_is (s_stack (scan cfg palette seed pre)) ch = false →
      s_stack (scan cfg palette seed (pre ++ [ch])) =
        {| o_symbol := ch; o_color := Some fallback;
           o_start := cursor (scan cfg palette seed pre) |}
        :: s_stack (scan cfg palette seed pre) ∧
      s_ranges (scan cfg palette seed (pre ++ [ch])) =
        s_ranges (scan cfg palette seed pre))) ∧
  Forall (λ r, symbol r = ch → color r = Some fallback)
         (ranges (annotate content cfg palette seed)).
Proof.
  intros Hs Hf. split.
  - intros pre. rewrite scan_snoc. split; intros Htop.
    + apply step_closes; [|done]. apply configured_lookup. eauto.
    + destruct (step_opens cfg palette ch _ spec Hs Htop) as [H1 H2].
      by rewrite H1, H2, resolve_color_fallback.
  - apply (annotate_colours cfg palette content seed
             (λ s c, s = ch → c = Some fallback)).
    intros ch' spec' st Hs' ->. rewrite Hs in Hs'. injection Hs' as <-.
    by apply resolve_color_fallback.
Qed.

Lemma annotate_fallback_color_witness :
  Forall (λ r, symbol r = SQUARE → color r = Some fallback)
    (ranges (annotate [SQUARE; TRIANGLE; 97; TRIANGLE; SQUARE; SQUARE]%N
               plain_config (Some defaultPalette) 3)).
Proof.
  apply (annotate_fallback_color _ plain_config (Some defaultPalette) 3 SQUARE
           {| kind := Some "fixed"%string; spec_color := Some "#FFE26A"%string |}).
  - vm_compute. reflexivity.
  - right. split; discriminate.
Defined.

(* ===================================================================== *)
(** ** The generator and the draw                                         *)
(* ===================================================================== *)

Lemma toUint32_toUint32 x : Num.toUint32 (Num.toUint32 x) = Num.toUint32 x.
Proof. unfold Num.toUint32. apply Zmod_mod. Qed.

Lemma toInt32_toUint32 x : Num.toInt32 (Num.toUint32 x) = Num.toInt32 x.
Proof.
  unfold Num.toInt32, Num.toUint32.
  by rewrite Zplus_mod_idemp_l.
Qed.

Lemma toUint32_add x c :
  Num.toUint32 (Num.toUint32 x + c) = Num.toUint32 (x + c).
Proof. unfold Num.toUint32. by rewrite Zplus_mod_idemp_l. Qed.

Lemma toInt32_add x c :
  Num.toInt32 (Num.toUint32 x + c) = Num.toInt32 (x + c).
Proof.
  rewrite <- toInt32_toUint32, toUint32_add. apply toInt32_toUint32.
Qed.

(** The draw reads the incremented [t] modulo [2^32] only. *)
Lemma mix_uint32 t1 t2 :
  Num.toUint32 t1 = Num.toUint32 t2 → mix t1 = mix t2.
Proof.
  intros H.
  assert (Hi : Num.toInt32 t1 = Num.toInt32 t2)
    by (by rewrite <- (toInt32_toUint32 t1), H, toInt32_toUint32).
  assert (Hx : ∀ y, Num.bxor t1 y = Num.bxor t2 y)
    by (intros y; unfold Num.bxor; by rewrite Hi).
  assert (Ho : ∀ y, Num.bor y t1 = Num.bor y t2)
    by (intros y; unfold Num.bor; by rewrite Hi).
  assert (Hs : ∀ n, Num.ushr t1 n = Num.ushr t2 n)
    by (intros n; unfold Num.ushr; by rewrite H).
  unfold mix. by rewrite Hs, Hx, Ho.
Qed.

Lemma fround_small x : (x < 2 ^ 53)%Z → Num.fround x = x.
Proof.
  intros H. unfold Num.fround.
  destruct (Z.ltb_spec x (2 ^ 53)); [done|lia].
Qed.

Lemma rand_call_mix t : (rand_call t).2 = mix (Num.fround (t + 0x6D2B79F5)).
Proof. unfold rand_call, mix. cbv zeta. reflexivity. Qed.

(** X1. While the sum stays below [2^53], that is for the first millions of
    draws, [t += 0x6D2B79F5] is exact, and the number drawn is the one the
    generator draws from [t] reduced modulo [2^32]: the closure behaves as
    the generator with a 32-bit state. The number drawn is at least 0 and
    below 1. *)
Theorem rand_call_wraps (t : Z) :
  (0 ≤ t)%Z → (t + 0x6D2B79F5 < 2 ^ 53)%Z →
  (rand_call t).1 = (t + 0x6D2B79F5)%Z ∧
  (rand_call t).2 = (rand_call (Num.toUint32 t)).2 ∧
  (0 ≤ (rand_call t).2 < 2 ^ 32)%Z.
Proof.
  intros H0 H1.
  assert (Hm : (0 ≤ Num.toUint32 t < 2 ^ 32)%Z)
    by (apply Z.mod_pos_bound; lia).
  split; [|split; [|apply rand_call_range]].
  - unfold rand_call. simpl. by apply fround_small.
  - rewrite !rand_call_mix, !fround_small by lia.
    apply mix_uint32. by rewrite toUint32_add.
Qed.

Lemma rand_call_wraps_witness :
  (rand_call 4294967297).2 = (rand_call (Num.toUint32 4294967297)).2.
Proof. apply (rand_call_wraps 4294967297); done. Defined.

Lemma pickColor_nonempty (t : Z) (pal : list string) (used : gset jscolor) :
  pal ≠ [] →
  ∃ c, pickColor t (Some pal) used = (Some c, (rand_call t).1, {[ Some c ]} ∪ used) ∧
       c ∈ pal ∧
       ((∃ x, x ∈ pal ∧ Some x ∉ used) → Some c ∉ used).
Proof.
  intros Hne. unfold pickColor.
  destruct pal as [|c0 pal]; [done|].
  set (unused := filter _ (c0 :: pal)).
  set (arr := match unused with [] => c0 :: pal | _ => unused end).
  assert (Harr : 0 < length arr ∧ arr ⊆ c0 :: pal ∧
                 (unused ≠ [] → arr = unused)).
  { unfold arr. destruct unused as [|u us] eqn:Hu.
    - simpl. split; [lia|done].
    - split; [simpl; lia|]. split; [|done]. rewrite <- Hu. unfold unused.
      intros x Hx. by apply list_elem_of_filter in Hx as [_ ?]. }
  destruct Harr as (Hlen & Hsub & Hun).
  pose proof (draw_index_lt t (length arr) Hlen) as Hidx.
  destruct (rand_call t) as [t' u]. simpl in *.
  apply lookup_lt_is_Some_2 in Hidx as [c Hc].
  exists c. rewrite Hc. split; [done|].
  apply list_elem_of_lookup_2 in Hc. split; [by apply Hsub|].
  intros (x & Hx & Hxu).
  assert (Hxin : x ∈ unused) by (by apply list_elem_of_filter).
  rewrite Hun in Hc by (intros Hnil; rewrite Hnil in Hxin; by apply not_elem_of_nil in Hxin).
  by apply list_elem_of_filter in Hc as [? _].
Qed.

(** X2. With a non-empty palette [pickColor] returns a colour of the palette
    and adds it to the set of used colours, after one call of the
    generator. While some colour of the palette is unused, the colour
    returned is one that was unused. *)
Theorem pickColor_prefers_unused (t : Z) (pal : list string) (used : gset jscolor) :
  pal ≠ [] →
  ∃ c, pickColor t (Some pal) used = (Some c, (rand_call t).1, {[ Some c ]} ∪ used) ∧
       c ∈ pal ∧
       ((∃ x, x ∈ pal ∧ Some x ∉ used) → Some c ∉ used).
Proof.
  intros Hne.
  destruct (pickColor_nonempty t pal used Hne) as (c & Hpick & Hin & Hfresh).
  exists c. split; [exact Hpick|]. split; [exact Hin|exact Hfresh].
Qed.

Lemma pickColor_prefers_unused_witness :
  ∃ c, pickColor 5 (Some ["#111111"; "#222222"]%string) {[ Some "#111111"%string ]} =
         (Some c, (rand_call 5).1, {[ Some c ]} ∪ {[ Some "#111111"%string ]}) ∧
       c ∈ ["#111111"; "#222222"]%string ∧
       ((∃ x, x ∈ ["#111111"; "#222222"]%string ∧
              Some x ∉ ({[ Some "#111111"%string ]} : gset jscolor)) →
        Some c ∉ ({[ Some "#111111"%string ]} : gset jscolor)).
Proof. apply pickColor_prefers_unused. discriminate. Defined.

(* ===================================================================== *)
(** ** More on one iteration                                              *)
(* ===================================================================== *)

Section MoreSteps.

Context (cfg : Config) (palette : option (list string)).

Lemma step_skip ch st :
  symbolMap cfg !! [ch] = Some Falsy → step cfg palette ch st = next_i st.
Proof.
  intros Hs. unfold step.
  destruct (body_spec cfg palette ch st); congruence.
Qed.

Lemma open_region_fields ch spec st :
  s_line (open_region palette ch spec st) = s_line st ∧
  s_col (open_region palette ch spec st) = s_col st ∧
  s_i (open_region palette ch spec st) = s_i st.
Proof.
  pose proof (open_region_cursor palette ch spec st) as H.
  by injection H as -> -> ->.
Qed.

(** The cursor never moves back, and moves one column forward on a
    character that is configured with a SymbolSpec. *)
Lemma step_cursor ch st :
  (s_line st < s_line (step cfg palette ch st) ∨
   (s_line (step cfg palette ch st) = s_line st ∧
    s_col st ≤ s_col (step cfg palette ch st))) ∧
  (configured cfg ch = true →
   s_line (step cfg palette ch st) = s_line st ∧
   s_col (step cfg palette ch st) = s_col st + 1).
Proof.
  unfold step, configured.
  destruct (body_spec cfg palette ch st) as [Hs|? ? ? Hs|? Hs|Hs ?|Hs ?];
    rewrite Hs; simpl; try (split; [auto with lia|done]).
  destruct (open_region_fields ch spec st) as (-> & -> & _). auto with lia.
Qed.

End MoreSteps.

(* ===================================================================== *)
(** ** Where ranges start and end                                         *)
(* ===================================================================== *)

Section Boundaries.

Context (cfg : Config) (palette : option (list string)).

Lemma pos_lt_cursor_step p ch st :
  pos_lt p (cursor st) → pos_lt p (cursor (step cfg palette ch st)).
Proof.
  unfold pos_lt, cursor. cbn [line col].
  destruct (step_cursor cfg palette ch st) as [H _]. lia.
Qed.

Lemma scan_pos_lt seed content :
  Forall (λ r, pos_lt (start r) (end_ r)) (s_ranges (scan cfg palette seed content)) ∧
  Forall (λ o, pos_lt (o_start o) (cursor (scan cfg palette seed content)))
         (s_stack (scan cfg palette seed content)).
Proof.
  revert content.
  apply (scan_ind cfg palette seed (λ _ st,
    Forall (λ r, pos_lt (start r) (end_ r)) (s_ranges st) ∧
    Forall (λ o, pos_lt (o_start o) (cursor st)) (s_stack st)));
    [by split; constructor|].
  intros pre ch. set (st := scan cfg palette seed pre). intros [IHr IHs].
  assert (IHs' : Forall (λ o, pos_lt (o_start o) (cursor (step cfg palette ch st)))
                        (s_stack st)).
  { eapply Forall_impl; [exact IHs|]. intros o. apply pos_lt_cursor_step. }
  destruct (step_effect_spec cfg palette ch st)
    as [_ Er Es | _ _ (top&rest&Est&_&Es&Er) | spec Hc _ _ Es Er]; rewrite Er, Es.
  - done.
  - rewrite Est in IHs, IHs'.
    apply Forall_cons in IHs as [Htop _]. apply Forall_cons in IHs' as [_ IHs'].
    split; [|done]. apply Forall_app. split; [done|]. by apply Forall_singleton.
  - split; [done|]. apply Forall_cons. split; [|done].
    destruct (step_cursor cfg palette ch st) as [_ H]. destruct (H Hc) as [Hl Hco].
    unfold pos_lt, cursor. cbn [line col o_start]. lia.
Qed.

Lemma scan_on_delimiters seed content :
  Forall (λ r, content !! start_index r = Some (symbol r) ∧
               content !! end_index r = Some (symbol r))
         (s_ranges (scan cfg palette seed content)) ∧
  Forall (λ o, content !! entry_index o = Some (o_symbol o))
         (s_stack (scan cfg palette seed content)).
Proof.
  revert content.
  apply (scan_effect_ind cfg palette seed (λ content st,
    Forall (λ r, content !! start_index r = Some (symbol r) ∧
                 content !! end_index r = Some (symbol r)) (s_ranges st) ∧
    Forall (λ o, content !! entry_index o = Some (o_symbol o)) (s_stack st)));
    [by split; constructor|].
  intros pre ch st st' _ Hi _ Heff [IHr IHs].
  assert (IHr' : Forall (λ r, (pre ++ [ch]) !! start_index r = Some (symbol r) ∧
                              (pre ++ [ch]) !! end_index r = Some (symbol r))
                        (s_ranges st)).
  { eapply Forall_impl; [exact IHr|]. simpl. intros r [H1 H2].
    split; by apply lookup_app_l_Some. }
  assert (IHs' : Forall (λ o, (pre ++ [ch]) !! entry_index o = Some (o_symbol o))
                        (s_stack st)).
  { eapply Forall_impl; [exact IHs|]. simpl. intros o H. by apply lookup_app_l_Some. }
  assert (Hlast : (pre ++ [ch]) !! s_i st = Some ch).
  { rewrite Hi. by rewrite lookup_app_r, Nat.sub_diag by lia. }
  destruct Heff as [_ Er Es | _ _ (top&rest&Est&Hsym&Es&Er) | spec _ _ _ Es Er];
    rewrite Er, Es.
  - done.
  - rewrite Est in IHs'. apply Forall_cons in IHs' as [Htop IHs'].
    split; [|done]. apply Forall_app. split; [done|]. apply Forall_singleton.
    unfold start_index, end_index, entry_index in *. simpl. by rewrite <- Hsym at 2.
  - split; [done|]. apply Forall_cons. split; [|done]. done.
Qed.

(** What relates the closed ranges to each other and to the entries of the
    stack: a range that starts after another either starts after its end or
    ends before its end; an entry of the stack starts after the end, or
    before the start, of every closed range. *)
Lemma scan_laminar seed content :
  (∀ r1 r2, r1 ∈ s_ranges (scan cfg palette seed content) →
            r2 ∈ s_ranges (scan cfg palette seed content) →
            start_index r1 < start_index r2 →
            end_index r1 < start_index r2 ∨ end_index r2 < end_index r1) ∧
  (∀ r o, r ∈ s_ranges (scan cfg palette seed content) →
          o ∈ s_stack (scan cfg palette seed content) →
          end_index r < entry_index o ∨ entry_index o < start_index r).
Proof.
  revert content.
  apply (scan_effect_ind cfg palette seed (λ _ st,
    (∀ r1 r2, r1 ∈ s_ranges st → r2 ∈ s_ranges st →
              start_index r1 < start_index r2 →
              end_index r1 < start_index r2 ∨ end_index r2 < end_index r1) ∧
    (∀ r o, r ∈ s_ranges st → o ∈ s_stack st →
            end_index r < entry_index o ∨ entry_index o < start_index r)));
    [by split; intros ?? ?%not_elem_of_nil|].
  intros pre ch st st' -> Hi _ Heff [IHa IHb].
  destruct (scan_inv_scan cfg palette seed pre) as [Hr _ Hs Hss].
  set (st := scan cfg palette seed pre) in *.
  rewrite Forall_forall in Hr. rewrite Forall_forall in Hs.
  destruct Heff as [_ Er Es | _ _ (top&rest&Est&Hsym&Es&Er) | spec _ _ _ Es Er];
    rewrite Er, Es.
  - done.
  - rewrite Est in IHb, Hs, Hss. simpl in Hss.
    apply StronglySorted_cons in Hss as [Hgt _]. rewrite Forall_forall in Hgt.
    assert (Htop : top ∈ top :: rest) by left.
    split.
    + intros r1 r2 [H1| ->%list_elem_of_singleton]%elem_of_app
                   [H2| ->%list_elem_of_singleton]%elem_of_app Hlt.
      * by apply IHa.
      * destruct (IHb r1 top H1 Htop) as [?|?];
          unfold entry_index, start_index, end_index in *; simpl in *; lia.
      * right. destruct (Hr r2 H2) as (_&_&?).
        unfold end_index in *. simpl. lia.
      * lia.
    + intros r o [H1| ->%list_elem_of_singleton]%elem_of_app Ho.
      * apply IHb; [done|by right].
      * right. unfold start_index. simpl.
        assert (entry_index o ∈ map entry_index rest)
          by (apply list_elem_of_fmap; eauto).
        specialize (Hgt (entry_index o) H). unfold entry_index in *. lia.
  - split; [done|].
    intros r o Hrin [->|Ho]%elem_of_cons; [|by apply IHb].
    left. destruct (Hr r Hrin) as (_&_&?). unfold entry_index. simpl. lia.
Qed.

End Boundaries.

(** X3. Every range starts strictly before it ends in reading order: on an
    earlier line, or on the same line at a smaller column. *)
Theorem annotate_start_before_end content cfg palette seed :
  Forall (λ r, pos_lt (start r) (end_ r)) (ranges (annotate content cfg palette seed)).
Proof.
  destruct (scan_pos_lt cfg palette seed content) as [Hr Hs].
  rewrite annotate_ranges. apply Forall_app. split; [done|].
  apply Forall_fmap. eapply Forall_impl; [exact Hs|]. done.
Qed.

(** X4. Ranges sit on delimiters: the character of the text at the start
    offset of a range is the symbol of the range; a closed range ends on
    another occurrence of its symbol, a range left open ends at the length
    of the text. *)
Theorem annotate_on_delimiters content cfg palette seed :
  Forall (λ r, content !! start_index r = Some (symbol r) ∧
               (open r = None → content !! end_index r = Some (symbol r)) ∧
               (open r = Some true → end_index r = length content))
         (ranges (annotate content cfg palette seed)).
Proof.
  destruct (scan_on_delimiters cfg palette seed content) as [Hr Hs].
  destruct (scan_inv_scan cfg palette seed content) as [Hi _ _ _].
  rewrite annotate_ranges. apply Forall_app. split.
  - rewrite Forall_forall in Hr, Hi. apply Forall_forall. intros r Hin.
    destruct (Hr r Hin) as [H1 H2]. destruct (Hi r Hin) as (Ho&_&_).
    split; [done|]. split; [done|]. rewrite Ho. discriminate.
  - apply Forall_fmap. eapply Forall_impl; [exact Hs|]. simpl.
    intros o Ho. split; [done|]. split; [discriminate|done].
Qed.

(** X5. Regions nest: of two ranges of the output, the one that starts later
    either starts after the other has ended or ends no later than the
    other; two ranges never overlap in part. *)
Theorem annotate_laminar content cfg palette seed (r1 r2 : Range) :
  r1 ∈ ranges (annotate content cfg palette seed) →
  r2 ∈ ranges (annotate content cfg palette seed) →
  start_index r1 < start_index r2 →
  end_index r1 < start_index r2 ∨ end_index r2 ≤ end_index r1.
Proof.
  destruct (scan_laminar cfg palette seed content) as [Ha Hb].
  destruct (scan_inv_scan cfg palette seed content) as [Hr _ _ _].
  rewrite scan_i in Hr. rewrite Forall_forall in Hr.
  rewrite annotate_ranges.
  intros [H1|(o1&->&Ho1)%list_elem_of_fmap]%elem_of_app
         [H2|(o2&->&Ho2)%list_elem_of_fmap]%elem_of_app Hlt.
  - destruct (Ha r1 r2 H1 H2 Hlt); auto with lia.
  - destruct (Hb r1 o2 H1 Ho2) as [?|?]; [by left|].
    unfold start_index in *. simpl in Hlt. unfold entry_index in *. lia.
  - right. destruct (Hr r2 H2) as (_&_&?). unfold end_index in *. simpl. lia.
  - right. done.
Qed.

Lemma annotate_laminar_witness :
  end_index
    {| symbol := TRIANGLE; color := Some "#FFE26A"%string;
       start := {| line := 0; col := 0; index := 0 |};
       end_ := {| line := 0; col := 6; index := 6 |}; open := None |} < 2 ∨
  4 ≤ end_index
    {| symbol := TRIANGLE; color := Some "#FFE26A"%string;
       start := {| line := 0; col := 0; index := 0 |};
       end_ := {| line := 0; col := 6; index := 6 |}; open := None |}.
Proof.
  apply (annotate_laminar nested_text buildDefaultConfig (Some defaultPalette) 0
    {| symbol := TRIANGLE; color := Some "#FFE26A"%string;
       start := {| line := 0; col := 0; index := 0 |};
       end_ := {| line := 0; col := 6; index := 6 |}; open := None |}
    {| symbol := SQUARE; color := Some "#64D6E2"%string;
       start := {| line := 0; col := 2; index := 2 |};
       end_ := {| line := 0; col := 4; index := 4 |}; open := None |}).
  - vm_compute. apply list_elem_of_In. right. left. reflexivity.
  - vm_compute. apply list_elem_of_In. left. reflexivity.
  - vm_compute. lia.
Defined.

(* ===================================================================== *)
(** ** Lines and columns                                                  *)
(* ===================================================================== *)

Lemma position_after_snoc pre ch :
  position_after (pre ++ [ch]) =
  if bool_decide (ch = NEWLINE)
  then {| line := line (position_after pre) + 1; col := 0;
          index := S (index (position_after pre)) |}
  else {| line := line (position_after pre); col := col (position_after pre) + 1;
          index := S (index (position_after pre)) |}.
Proof.
  unfold position_after, occurrences.
  rewrite reverse_snoc, filter_app, !length_app. simpl.
  case_bool_decide as Hn.
  - rewrite filter_cons_True by done. simpl. f_equal; lia.
  - rewrite filter_cons_False by done. simpl. f_equal; lia.
Qed.

Section Lines.

Context (cfg : Config) (palette : option (list string)).

Lemma scan_position_after seed content :
  symbolMap cfg !! [NEWLINE] = None →
  Forall (λ ch, symbolMap cfg !! [ch] ≠ Some Falsy) content →
  cursor (scan cfg palette seed content) = position_after content.
Proof.
  intros Hnl. induction content as [|ch pre IH] using rev_ind; intros Hall; [done|].
  apply Forall_app in Hall as [Hpre Hch]. rewrite Forall_singleton in Hch.
  specialize (IH Hpre).
  rewrite scan_snoc, position_after_snoc, <- IH.
  set (st := scan cfg palette seed pre).
  unfold step, cursor.
  destruct (body_spec cfg palette ch st) as [Hs|? ? ? Hs|? Hs|Hs ->|Hs ?].
  - congruence.
  - rewrite bool_decide_false by (intros ->; congruence). simpl. f_equal.
  - rewrite bool_decide_false by (intros ->; congruence). simpl.
    destruct (open_region_fields palette ch spec st) as (-> & -> & ->). done.
  - by rewrite bool_decide_true.
  - by rewrite bool_decide_false.
Qed.

End Lines.

(** X6. When the newline is not a key of [symbols] and no character of the
    text has a falsy entry, coordinates mean what they say: the start of a
    range is on the line numbered by the newlines before it, at the column
    numbered by the characters between the last of these newlines and it;
    so is its end, and so is the end-of-file position. *)
Theorem annotate_coordinates content cfg palette seed :
  symbolMap cfg !! [NEWLINE] = None →
  Forall (λ ch, symbolMap cfg !! [ch] ≠ Some Falsy) content →
  eofPos cfg palette seed content = position_after content ∧
  Forall (λ r, start r = position_after (take (start_index r) content) ∧
               end_ r = position_after (take (end_index r) content))
         (ranges (annotate content cfg palette seed)).
Proof.
  intros Hnl Hall.
  assert (Heof : eofPos cfg palette seed content = position_after content).
  { rewrite <- (scan_position_after cfg palette seed content Hnl Hall).
    unfold eofPos, cursor. by rewrite scan_i. }
  split; [done|].
  assert (Hinv : ∀ pre, Forall (λ ch, symbolMap cfg !! [ch] ≠ Some Falsy) pre →
    Forall (λ r, start r = position_after (take (start_index r) pre) ∧
                 end_ r = position_after (take (end_index r) pre))
           (s_ranges (scan cfg palette seed pre)) ∧
    Forall (λ o, o_start o = position_after (take (entry_index o) pre))
           (s_stack (scan cfg palette seed pre))).
  { intros pre. induction pre as [|ch pre IH] using rev_ind; intros Hpre;
      [by split; constructor|].
    pose proof Hpre as [Hpre' _]%Forall_app.
    destruct (IH Hpre') as [IHr IHs].
    pose proof (scan_position_after cfg palette seed pre Hnl Hpre') as Hcur.
    destruct (scan_inv_scan cfg palette seed pre) as [Hb _ Hsb _].
    rewrite scan_i in Hb, Hsb. rewrite scan_snoc.
    set (st := scan cfg palette seed pre) in *.
    assert (IHr' : Forall (λ r, start r = position_after (take (start_index r) (pre ++ [ch])) ∧
                                end_ r = position_after (take (end_index r) (pre ++ [ch])))
                          (s_ranges st)).
    { rewrite Forall_forall in IHr, Hb. apply Forall_forall. intros r Hin.
      destruct (IHr r Hin) as [H1 H2]. destruct (Hb r Hin) as (_&?&?).
      by rewrite !take_app_le by lia. }
    assert (IHs' : Forall (λ o, o_start o = position_after (take (entry_index o) (pre ++ [ch])))
                          (s_stack st)).
    { rewrite Forall_forall in IHs, Hsb. apply Forall_forall. intros o Hin.
      specialize (Hsb o Hin). rewrite take_app_le by lia. by apply IHs. }
    assert (Hhere : cursor st = position_after (take (s_i st) (pre ++ [ch]))).
    { unfold st at 2. rewrite scan_i, take_app_le, firstn_all by lia. done. }
    destruct (step_effect_spec cfg palette ch st)
      as [_ Er Es | _ _ (top&rest&Est&_&Es&Er) | spec _ _ _ Es Er]; rewrite Er, Es.
    - done.
    - rewrite Est in IHs'. apply Forall_cons in IHs' as [Htop IHs'].
      split; [|done]. apply Forall_app. split; [done|]. apply Forall_singleton.
      unfold start_index, end_index. simpl. done.
    - split; [done|]. apply Forall_cons. split; [|done].
      unfold entry_index. simpl. done. }
  destruct (Hinv content Hall) as [Hr Hs].
  rewrite annotate_ranges. apply Forall_app. split; [done|].
  apply Forall_fmap. eapply Forall_impl; [exact Hs|]. simpl.
  intros o Ho. split; [done|].
  unfold end_index. simpl. rewrite Heof. simpl. by rewrite firstn_all.
Qed.

Lemma annotate_coordinates_witness :
  eofPos buildDefaultConfig None 0 example_text = position_after example_text ∧
  Forall (λ r, start r = position_after (take (start_index r) example_text) ∧
               end_ r = position_after (take (end_index r) example_text))
         (ranges (annotate example_text buildDefaultConfig None 0)).
Proof.
  apply (annotate_coordinates example_text buildDefaultConfig None 0).
  - vm_compute. reflexivity.
  - repeat constructor; vm_compute; discriminate.
Defined.

(* ===================================================================== *)
(** ** Palette and seed decide colours only                               *)
(* ===================================================================== *)

Section Geometry.

Context (cfg : Config) (palette1 palette2 : option (list string)).

Lemma same_geometry_top st1 st2 ch :
  same_geometry st1 st2 → top_is (s_stack st1) ch = top_is (s_stack st2) ch.
Proof.
  intros (_&_&_&_&Hs).
  destruct (s_stack st1) as [|o1 r1], (s_stack st2) as [|o2 r2]; try done.
  simpl in *. by injection Hs as -> _ _.
Qed.

Lemma step_same_geometry ch st1 st2 :
  same_geometry st1 st2 →
  same_geometry (step cfg palette1 ch st1) (step cfg palette2 ch st2).
Proof.
  intros Hsim. pose proof (same_geometry_top st1 st2 ch Hsim) as Htop.
  destruct Hsim as (Hl&Hc&Hi&Hr&Hs).
  destruct (symbolMap cfg !! [ch]) as [[|spec]|] eqn:Hlook.
  - rewrite !step_skip by done. unfold same_geometry. simpl. auto with congruence.
  - destruct (top_is (s_stack st1) ch) eqn:Ht1; symmetry in Htop.
    + apply top_is_true in Ht1 as (t1&r1&E1&S1).
      apply top_is_true in Htop as (t2&r2&E2&S2).
      rewrite (step_close cfg palette1 ch spec t1 r1 st1) by done.
      rewrite (step_close cfg palette2 ch spec t2 r2 st2) by done.
      rewrite E1, E2 in Hs. simpl in Hs. injection Hs as _ Hst Hs.
      unfold same_geometry. simpl. repeat split; try congruence.
      rewrite !map_app, Hr. simpl. unfold geometry at 2 4, cursor. simpl.
      by rewrite Hst, Hl, Hc, Hi.
    + rewrite (step_open cfg palette1 ch spec st1) by done.
      rewrite (step_open cfg palette2 ch spec st2) by done.
      destruct (open_region_fields palette1 ch spec st1) as (L1&C1&I1).
      destruct (open_region_fields palette2 ch spec st2) as (L2&C2&I2).
      unfold same_geometry. simpl.
      rewrite L1, L2, C1, C2, I1, I2, !open_region_ranges, !open_region_stack.
      simpl. unfold cursor. rewrite Hs, Hl, Hc, Hi. done.
  - destruct (decide (ch = NEWLINE)) as [->|Hn].
    + rewrite !step_newline by done. unfold same_geometry. simpl. auto with congruence.
    + rewrite !step_plain by done. unfold same_geometry. simpl. auto with congruence.
Qed.

Lemma loop_same_geometry content st1 st2 :
  same_geometry st1 st2 →
  same_geometry (loop cfg palette1 content st1) (loop cfg palette2 content st2).
Proof.
  revert st1 st2. induction content as [|ch rest IH]; intros st1 st2 H; simpl; [done|].
  by apply IH, step_same_geometry.
Qed.

End Geometry.

(** X7. Palette and seed decide colours and nothing else: for one text and
    one configuration, the outputs for any two palettes and seeds hold the
    same ranges in the same order, with the same symbols, start and end
    positions and [open] markers. *)
Theorem annotate_geometry content cfg palette1 seed1 palette2 seed2 :
  map geometry (ranges (annotate content cfg palette1 seed1)) =
  map geometry (ranges (annotate content cfg palette2 seed2)).
Proof.
  assert (H : same_geometry (scan cfg palette1 seed1 content)
                            (scan cfg palette2 seed2 content)).
  { apply loop_same_geometry. unfold same_geometry. simpl. done. }
  destruct H as (Hl&Hc&_&Hr&Hs).
  rewrite !annotate_ranges, !map_app, Hr. f_equal.
  unfold eofPos. rewrite Hl, Hc.
  set (eof := {| line := _; col := _; index := _ |}).
  apply (f_equal (map (λ p : N * Position, (p.1, p.2, eof, Some true)))) in Hs.
  by rewrite !map_map in Hs |- *.
Qed.

(* ===================================================================== *)
(** ** Which colour a region gets                                         *)
(* ===================================================================== *)

(** X8. Every range of a symbol of kind ['onoff'] with a non-empty [color]
    has that colour, whatever the palette and the seed. *)
Theorem annotate_onoff_color content cfg palette seed (s : N) (spec : SymbolSpec) (c : string) :
  symbolMap cfg !! [s] = Some (Obj spec) →
  kind spec = Some "onoff"%string → spec_color spec = Some c → c ≠ ""%string →
  Forall (λ r, symbol r = s → color r = Some c)
         (ranges (annotate content cfg palette seed)).
Proof.
  intros Hs Hk Hc Hne.
  apply (annotate_colours cfg palette content seed (λ s' c', s' = s → c' = Some c)).
  intros ch spec' st Hs' ->. rewrite Hs in Hs'. injection Hs' as <-.
  unfold resolve_color. rewrite bool_decide_true by done. rewrite Hc. simpl.
  by destruct c.
Qed.

Lemma annotate_onoff_color_witness :
  Forall (λ r, symbol r = TRIANGLE → color r = Some "#FFE26A"%string)
         (ranges (annotate odd_text buildDefaultConfig (Some defaultPalette) 9)).
Proof.
  apply (annotate_onoff_color odd_text buildDefaultConfig (Some defaultPalette) 9 TRIANGLE
           {| kind := Some "onoff"%string; spec_color := Some "#FFE26A"%string |});
    by vm_compute.
Defined.

(** X9. With a non-empty palette, every range of a symbol of kind ['random']
    has a colour of the palette. *)
Theorem annotate_random_color content cfg (pal : list string) seed (s : N) :
  random_symbol cfg s → pal ≠ [] →
  Forall (λ r, symbol r = s → ∃ c, color r = Some c ∧ c ∈ pal)
         (ranges (annotate content cfg (Some pal) seed)).
Proof.
  intros (spec & Hs & Hk) Hne.
  apply (annotate_colours cfg (Some pal) content seed
           (λ s' c', s' = s → ∃ c, c' = Some c ∧ c ∈ pal)).
  intros ch spec' st Hs' ->. rewrite Hs in Hs'. injection Hs' as <-.
  unfold resolve_color. rewrite Hk.
  rewrite bool_decide_false by discriminate. rewrite bool_decide_true by done.
  destruct (pickColor_nonempty (s_rand st) pal (s_used st) Hne) as (c & -> & Hin & _).
  cbn [fst]. eauto.
Qed.

Lemma annotate_random_color_witness :
  Forall (λ r, symbol r = SQUARE → ∃ c, color r = Some c ∧ c ∈ defaultPalette)
         (ranges (annotate odd_text buildDefaultConfig (Some defaultPalette) 2)).
Proof.
  apply (annotate_random_color odd_text buildDefaultConfig defaultPalette 2 SQUARE).
  - exists {| kind := Some "random"%string; spec_color := None |}.
    split; vm_compute; reflexivity.
  - discriminate.
Defined.

(* ===================================================================== *)
(** ** Distinct colours                                                   *)
(* ===================================================================== *)

(** In a palette without repetition that is longer than the set of used
    colours is large, some colour is unused. *)
Lemma palette_has_unused (pal : list string) (used : gset jscolor) :
  NoDup pal → size used < length pal → ∃ x, x ∈ pal ∧ Some x ∉ used.
Proof.
  intros Hnd Hsize.
  destruct (decide (Forall (λ x, Some x ∈ used) pal)) as [Hall|Hex].
  - exfalso.
    assert (Hsub : list_to_set (Some <$> pal) ⊆ used).
    { intros c (x & -> & Hx)%elem_of_list_to_set%list_elem_of_fmap.
      rewrite Forall_forall in Hall. by apply Hall. }
    apply subseteq_size in Hsub.
    assert (Hnd' : NoDup (Some <$> pal)) by (apply NoDup_fmap; [apply _|done]).
    rewrite (size_list_to_set _ Hnd'), length_fmap in Hsub. lia.
  - apply not_Forall_Exists in Hex; [|apply _].
    apply Exists_exists in Hex as (x & Hx & Hnot). eauto.
Qed.

Lemma size_add_le (c : jscolor) (X : gset jscolor) : size ({[ c ]} ∪ X) ≤ S (size X).
Proof.
  rewrite size_union_alt, size_singleton.
  pose proof (subseteq_size (X ∖ {[ c ]}) X (subseteq_difference_l X {[ c ]} X (reflexivity X))).
  lia.
Qed.

Section Distinct.

Context (cfg : Config) (palette : option (list string)).

Lemma step_used ch st :
  (is_opening cfg st ch = false → s_used (step cfg palette ch st) = s_used st) ∧
  (∀ spec, symbolMap cfg !! [ch] = Some (Obj spec) → top_is (s_stack st) ch = false →
           s_used (step cfg palette ch st) = (resolve_color palette spec st).2).
Proof.
  unfold is_opening, configured, step.
  destruct (body_spec cfg palette ch st) as [Hs|? top rest Hs Hst Hsym|? Hs Htop|Hs ?|Hs ?];
    rewrite Hs; simpl; (split; [|intros spec' Hs' Htop'; simplify_eq]); try done.
  - rewrite Hst in Htop'. simpl in Htop'. by rewrite bool_decide_true in Htop'.
  - by rewrite Htop.
  - unfold open_region. by destruct (resolve_color _ _ _) as [[??]?].
Qed.

(** The set of used colours grows by at most the colour resolved. *)
Lemma resolve_color_used spec st :
  (resolve_color palette spec st).2 = s_used st ∨
  (resolve_color palette spec st).2 = {[ (resolve_color palette spec st).1.1 ]} ∪ s_used st.
Proof.
  unfold resolve_color. repeat case_bool_decide; cbn [fst snd]; auto.
  unfold pickColor. destruct palette as [[|c0 pal]|]; cbn [fst snd]; auto.
  all: destruct (rand_call (s_rand st)) as [t' u]; cbn [fst snd]; auto.
Qed.

Lemma size_used_step ch st :
  size (s_used st) ≤ length (s_ranges st) + length (s_stack st) →
  size (s_used (step cfg palette ch st)) ≤
    length (s_ranges (step cfg palette ch st)) + length (s_stack (step cfg palette ch st)).
Proof.
  intros IH. destruct (step_used ch st) as [Hsame Hopen].
  destruct (step_effect_spec cfg palette ch st)
    as [Hc Er Es | Hc Htop (top&rest&Est&_&Es&Er) | spec Hc Htop Hs Es Er];
    rewrite Er, Es.
  - rewrite Hsame; [done|]. unfold is_opening. by rewrite Hc.
  - rewrite Hsame by (unfold is_opening; by rewrite Hc, Htop).
    rewrite Est in IH. rewrite length_app. simpl in *. lia.
  - rewrite (Hopen spec Hs Htop). simpl.
    destruct (resolve_color_used spec st) as [-> | ->]; [lia|].
    pose proof (size_add_le (resolve_color palette spec st).1.1 (s_used st)). lia.
Qed.

Lemma scan_size_used seed content :
  size (s_used (scan cfg palette seed content)) ≤
  length (s_ranges (scan cfg palette seed content)) +
  length (s_stack (scan cfg palette seed content)).
Proof.
  revert content.
  apply (scan_ind cfg palette seed (λ _ st,
    size (s_used st) ≤ length (s_ranges st) + length (s_stack st))).
  - change (size (∅ : gset jscolor) ≤ 0). by rewrite size_empty.
  - intros pre ch IH. by apply size_used_step.
Qed.

Lemma regions_step ch st :
  length (s_ranges st) + length (s_stack st) ≤
  length (s_ranges (step cfg palette ch st)) + length (s_stack (step cfg palette ch st)).
Proof.
  destruct (step_effect_spec cfg palette ch st)
    as [_ Er Es | _ _ (top&rest&Est&_&Es&Er) | spec _ _ _ Es Er]; rewrite Er, Es.
  - done.
  - rewrite Est, length_app. simpl. lia.
  - simpl. lia.
Qed.

End Distinct.

Section DistinctColours.

Context (cfg : Config) (pal : list string).

Lemma resolve_color_random palette spec st :
  kind spec = Some "random"%string →
  resolve_color palette spec st = pickColor (s_rand st) palette (s_used st).
Proof.
  intros Hk. unfold resolve_color. rewrite Hk.
  rewrite bool_decide_false by discriminate. by rewrite bool_decide_true.
Qed.

Lemma is_random_lookup ch spec :
  symbolMap cfg !! [ch] = Some (Obj spec) →
  is_random cfg ch = bool_decide (kind spec = Some "random"%string).
Proof. unfold is_random. by intros ->. Qed.

Lemma random_colours_eq st st' :
  s_ranges st' = s_ranges st → s_stack st' = s_stack st →
  random_colours cfg st' = random_colours cfg st.
Proof. unfold random_colours. by intros -> ->. Qed.

Lemma random_colours_close ch top rest st st' :
  s_stack st = top :: rest → o_symbol top = ch →
  s_stack st' = rest →
  s_ranges st' = s_ranges st ++
    [ {| symbol := ch; color := o_color top; start := o_start top;
         end_ := cursor st; open := None |} ] →
  random_colours cfg st' = random_colours cfg st.
Proof.
  intros Est Hsym Es Er. unfold random_colours. rewrite Er, Es, Est, filter_app.
  destruct (decide (is_random cfg ch = true)) as [Hr|Hr].
  - rewrite (filter_cons_True _ _ []) by done.
    rewrite (filter_cons_True _ top rest) by (by rewrite Hsym).
    rewrite filter_nil, map_app, <- app_assoc. done.
  - rewrite (filter_cons_False _ _ []) by done.
    rewrite (filter_cons_False _ top rest) by (by rewrite Hsym).
    by rewrite filter_nil, app_nil_r.
Qed.

Lemma random_colours_open ch c p st st' :
  s_stack st' = {| o_symbol := ch; o_color := c; o_start := p |} :: s_stack st →
  s_ranges st' = s_ranges st →
  random_colours cfg st' ≡ₚ
  (if is_random cfg ch then [c] else []) ++ random_colours cfg st.
Proof.
  intros Es Er. unfold random_colours. rewrite Er, Es.
  destruct (is_random cfg ch) eqn:Hr.
  - rewrite filter_cons_True by done. simpl. by rewrite <- Permutation_middle.
  - rewrite filter_cons_False by (simpl; congruence). done.
Qed.

(** While the regions are no more than the colours of a palette without
    repetition, the regions of ['random'] symbols have pairwise distinct
    colours, all of them recorded as used. *)
Lemma scan_distinct seed content :
  NoDup pal →
  length (s_ranges (scan cfg (Some pal) seed content)) +
  length (s_stack (scan cfg (Some pal) seed content)) ≤ length pal →
  (∀ c, c ∈ random_colours cfg (scan cfg (Some pal) seed content) →
        c ∈ s_used (scan cfg (Some pal) seed content)) ∧
  NoDup (random_colours cfg (scan cfg (Some pal) seed content)).
Proof.
  intros Hnd. induction content as [|ch pre IH] using rev_ind; intros Hlen.
  - split; [by intros c ?%not_elem_of_nil|constructor].
  - rewrite scan_snoc in Hlen |- *.
    pose proof (scan_size_used cfg (Some pal) seed pre) as Hsize.
    set (st := scan cfg (Some pal) seed pre) in *.
    pose proof (regions_step cfg (Some pal) ch st) as Hmono.
    destruct IH as [IH2 IH3]; [lia|].
    destruct (step_used cfg (Some pal) ch st) as [Hsame Hopen].
    destruct (step_effect_spec cfg (Some pal) ch st)
      as [Hc Er Es | Hc Htop (top&rest&Est&Hsym&Es&Er) | spec Hc Htop Hs Es Er].
    + rewrite (random_colours_eq _ _ Er Es), Hsame; [done|].
      unfold is_opening. by rewrite Hc.
    + rewrite (random_colours_close ch top rest _ _ Est Hsym Es Er), Hsame; [done|].
      unfold is_opening. by rewrite Hc, Htop.
    + pose proof (random_colours_open ch _ _ _ _ Es Er) as Hperm.
      rewrite (is_random_lookup ch spec Hs) in Hperm.
      rewrite (Hopen spec Hs Htop). clear Hopen Hsame.
      case_bool_decide as Hk.
      * rewrite (resolve_color_random _ _ _ Hk).
        rewrite Es, Er in Hlen. simpl in Hlen.
        assert (Hne : pal ≠ []) by (intros ->; simpl in Hlen; lia).
        destruct (pickColor_nonempty (s_rand st) pal (s_used st) Hne)
          as (c & Hpick & Hin & Hfresh).
        assert (Hnew : Some c ∉ s_used st).
        { apply Hfresh, palette_has_unused; [done|lia]. }
        rewrite (resolve_color_random _ _ _ Hk) in Hperm.
        destruct (pickColor (s_rand st) (Some pal) (s_used st)) as [[c0 t0] u0].
        injection Hpick as -> _ ->.
        cbn [fst snd app] in Hperm |- *. split.
        -- intros c' Hc'. rewrite Hperm in Hc'.
           apply elem_of_cons in Hc' as [->|Hc']; [set_solver|].
           apply IH2 in Hc'. set_solver.
        -- rewrite Hperm. constructor; [|done]. intros Hc'%IH2. done.
      * cbn [app] in Hperm. split; [|by rewrite Hperm].
        intros c' Hc'. rewrite Hperm in Hc'. apply IH2 in Hc'.
        destruct (resolve_color_used (Some pal) spec st) as [-> | ->]; set_solver.
Qed.

End DistinctColours.

Lemma random_colours_annotate content cfg palette seed :
  map color (filter (λ r, is_random cfg (symbol r) = true)
                    (ranges (annotate content cfg palette seed))) =
  random_colours cfg (scan cfg palette seed content).
Proof.
  rewrite annotate_ranges, filter_app, map_app. unfold random_colours. f_equal.
  induction (s_stack (scan cfg palette seed content)) as [|o stack IH]; [done|].
  simpl. destruct (decide (is_random cfg (o_symbol o) = true)) as [Ho|Ho].
  - rewrite !filter_cons_True by done. simpl. by rewrite IH.
  - rewrite !filter_cons_False by done. done.
Qed.

(** X10. When the palette has no repeated colour and at least as many colours
    as the output has ranges, the ranges of the symbols of kind ['random']
    have pairwise distinct colours. *)
Theorem annotate_distinct_colors content cfg (pal : list string) seed :
  NoDup pal →
  length (ranges (annotate content cfg (Some pal) seed)) ≤ length pal →
  NoDup (map color (filter (λ r, is_random cfg (symbol r) = true)
                           (ranges (annotate content cfg (Some pal) seed)))).
Proof.
  intros Hnd Hlen. rewrite random_colours_annotate.
  apply scan_distinct; [done|].
  by rewrite annotate_ranges, length_app, length_map in Hlen.
Qed.

Lemma annotate_distinct_colors_witness :
  NoDup (map color (filter (λ r, is_random buildDefaultConfig (symbol r) = true)
    (ranges (annotate [SQUARE; CIRCLE; SQUARE; CIRCLE; CIRCLE; SQUARE]%N
               buildDefaultConfig (Some defaultPalette) 1)))).
Proof.
  apply annotate_distinct_colors.
  - apply NoDup_ListNoDup. repeat constructor; simpl; intuition discriminate.
  - vm_compute. lia.
Defined.

(* ===================================================================== *)
(** ** Seeds, inert texts and longer texts                                *)
(* ===================================================================== *)

(** X11. The seed counts modulo [2^32]: two seeds with the same remainder,
    such as [-1] and [4294967295], give the same output. *)
Theorem annotate_seed_wraps content cfg palette (seed1 seed2 : Z) :
  (seed1 `mod` 2 ^ 32 = seed2 `mod` 2 ^ 32)%Z →
  annotate content cfg palette seed1 = annotate content cfg palette seed2.
Proof. intros H. apply annotate_seed_uint32. exact H. Qed.

Lemma annotate_seed_wraps_witness :
  annotate odd_text buildDefaultConfig (Some defaultPalette) (-1) =
  annotate odd_text buildDefaultConfig (Some defaultPalette) 4294967295.
Proof. apply annotate_seed_wraps. reflexivity. Defined.

(** X12. The output has no range exactly when no character of the text is a
    configured symbol. *)
Theorem annotate_empty_iff content cfg palette seed :
  ranges (annotate content cfg palette seed) = [] ↔
  Forall (λ ch, configured cfg ch = false) content.
Proof.
  split.
  - intros Hnil. apply Forall_forall. intros ch Hin.
    destruct (configured cfg ch) eqn:Hc; [exfalso|done].
    pose proof (scan_count cfg palette seed ch content Hc) as Hcount.
    rewrite annotate_ranges in Hnil.
    apply app_eq_nil in Hnil as [Hr Hs]. apply fmap_nil_inv in Hs.
    rewrite Hr, Hs in Hcount. simpl in Hcount.
    apply list_elem_of_In, (in_split ch) in Hin as (l1 & l2 & ->).
    unfold occurrences in Hcount.
    rewrite filter_app, filter_cons_True, length_app in Hcount by done.
    simpl in Hcount. lia.
  - intros Hall. by rewrite (annotate_no_symbols cfg palette content seed Hall).
Qed.

Section Prefix.

Context (cfg : Config) (palette : option (list string)).

Lemma loop_ranges_prefix content st :
  s_ranges st `prefix_of` s_ranges (loop cfg palette content st).
Proof.
  revert st. induction content as [|ch rest IH]; intros st; simpl; [done|].
  etrans; [|apply IH].
  destruct (step_effect_spec cfg palette ch st)
    as [_ Er Es | _ _ (top&rest'&Est&_&Es&Er) | spec _ _ _ Es Er]; rewrite Er;
    [done|by apply prefix_app_r|done].
Qed.

Lemma closed_ranges_annotate content seed :
  closed_ranges (ranges (annotate content cfg palette seed)) =
  s_ranges (scan cfg palette seed content).
Proof.
  rewrite annotate_ranges. unfold closed_ranges. rewrite filter_app.
  destruct (scan_inv_scan cfg palette seed content) as [Hr _ _ _].
  assert (H1 : filter (λ r, open r = None) (s_ranges (scan cfg palette seed content)) =
               s_ranges (scan cfg palette seed content)).
  { induction Hr as [|r rs (Ho&_) _ IH]; [done|].
    by rewrite filter_cons_True, IH by done. }
  assert (H2 : ∀ eof stack, filter (λ r, open r = None) (map (eof_range eof) stack) = []).
  { intros eof stack. induction stack as [|o stack IH]; [done|].
    simpl. by rewrite filter_cons_False by done. }
  by rewrite H1, H2, app_nil_r.
Qed.

End Prefix.

(** X13. Text that follows does not change what is closed: the closed ranges
    of the output for a text are the first ranges, in the same order, of
    the output for any longer text that starts with it. *)
Theorem annotate_prefix_stable (pre suf : list N) cfg palette seed :
  closed_ranges (ranges (annotate pre cfg palette seed)) `prefix_of`
  ranges (annotate (pre ++ suf) cfg palette seed).
Proof.
  rewrite closed_ranges_annotate, (annotate_ranges (pre ++ suf)).
  apply prefix_app_r. unfold scan. rewrite loop_app. apply loop_ranges_prefix.
Qed.



(* ===================================================================== *)
(** ** The ranges left open                                               *)
(* ===================================================================== *)

Lemma reduced_constant (s : N) (l : list N) :
  reduced l → Forall (λ x, x = s) l → length l ≤ 1.
Proof.
  destruct l as [|a [|b l]]; simpl; [lia..|].
  intros [Hne _] Hall.
  apply Forall_cons in Hall as [-> Hall]. apply Forall_cons in Hall as [-> _]. done.
Qed.

Lemma toggle_elem ch l x : x ∈ toggle ch l → x = ch ∨ x ∈ l.
Proof.
  destruct l as [|t rest]; simpl.
  - intros ->%list_elem_of_singleton. by left.
  - case_bool_decide.
    + intros ?. right. by right.
    + intros [->|?]%elem_of_cons; auto.
Qed.

Section Unclosed.

Context (cfg : Config) (palette : option (list string)).

Lemma scan_reduced seed content : reduced (shape (scan cfg palette seed content)).
Proof.
  revert content. apply (scan_ind cfg palette seed (λ _ st, reduced (shape st))); [done|].
  intros pre ch IH. rewrite shape_step.
  destruct (configured cfg ch); [by apply toggle_reduced|done].
Qed.

Lemma scan_shape_symbols seed content :
  Forall (λ x, x ∈ content ∧ configured cfg x = true) (shape (scan cfg palette seed content)).
Proof.
  revert content.
  apply (scan_ind cfg palette seed (λ content st,
    Forall (λ x, x ∈ content ∧ configured cfg x = true) (shape st))); [constructor|].
  intros pre ch IH. rewrite shape_step.
  assert (IH' : Forall (λ x, x ∈ pre ++ [ch] ∧ configured cfg x = true)
                       (shape (scan cfg palette seed pre))).
  { eapply Forall_impl; [exact IH|]. simpl. intros x [??]. split; [|done].
    apply elem_of_app. by left. }
  destruct (configured cfg ch) eqn:Hc; [|done].
  apply Forall_forall. intros x [->|Hx]%toggle_elem.
  - split; [|done]. apply elem_of_app. right. by left.
  - rewrite Forall_forall in IH'. by apply IH'.
Qed.

Lemma unclosed_ranges_annotate content seed :
  unclosed_ranges (ranges (annotate content cfg palette seed)) =
  map (eof_range (eofPos cfg palette seed content))
      (s_stack (scan cfg palette seed content)).
Proof.
  rewrite annotate_ranges. unfold unclosed_ranges. rewrite filter_app.
  destruct (scan_inv_scan cfg palette seed content) as [Hr _ _ _].
  assert (H1 : filter (λ r, open r = Some true) (s_ranges (scan cfg palette seed content)) = []).
  { induction Hr as [|r rs (Ho&_) _ IH]; [done|].
    rewrite filter_cons_False; [done|]. rewrite Ho. discriminate. }
  assert (H2 : ∀ eof stack, filter (λ r, open r = Some true) (map (eof_range eof) stack) =
                            map (eof_range eof) stack).
  { intros eof stack. induction stack as [|o stack IH]; [done|].
    simpl. by rewrite filter_cons_True, IH by done. }
  by rewrite H1, H2.
Qed.

End Unclosed.

(** X15. Among the ranges left open at end of input, listed as in the output,
    no two neighbours belong to the same symbol. *)
Theorem annotate_unclosed_alternate content cfg palette seed :
  reduced (map symbol (unclosed_ranges (ranges (annotate content cfg palette seed)))).
Proof.
  rewrite unclosed_ranges_annotate, map_map. simpl.
  apply (scan_reduced cfg palette seed content).
Qed.

(** X16. When [s] is the only configured symbol that occurs in the text, at
    most one range is left open: exactly one when [s] occurs an odd number
    of times, none when it occurs an even number of times. *)
Theorem annotate_single_symbol content cfg palette seed (s : N) :
  configured cfg s = true →
  (∀ ch, ch ∈ content → configured cfg ch = true → ch = s) →
  length (unclosed_ranges (ranges (annotate content cfg palette seed))) =
  occurrences s content `mod` 2.
Proof.
  intros Hs Honly.
  rewrite unclosed_ranges_annotate, length_map.
  pose proof (scan_count cfg palette seed s content Hs) as Hcount.
  pose proof (scan_reduced cfg palette seed content) as Hred.
  pose proof (scan_shape_symbols cfg palette seed content) as Hsym.
  assert (Hall : Forall (λ x, x = s) (shape (scan cfg palette seed content))).
  { eapply Forall_impl; [exact Hsym|]. simpl. intros x [??]. by apply Honly. }
  pose proof (reduced_constant s _ Hred Hall) as Hle.
  unfold shape in Hle, Hall. rewrite length_map in Hle.
  assert (Hent : entries_of s (s_stack (scan cfg palette seed content)) =
                 s_stack (scan cfg palette seed content)).
  { unfold entries_of. apply (proj1 (Forall_fmap _ _ _)) in Hall.
    revert Hall. generalize (s_stack (scan cfg palette seed content)).
    intros stack Hall. induction Hall as [|o stack Ho _ IH]; [done|].
    by rewrite filter_cons_True, IH by done. }
  rewrite Hent in Hcount. rewrite Hcount.
  rewrite Nat.add_comm, Nat.mul_comm, Nat.Div0.mod_add.
  symmetry. apply Nat.mod_small. lia.
Qed.

Lemma annotate_single_symbol_witness :
  length (unclosed_ranges
    (ranges (annotate [TRIANGLE; 97; TRIANGLE; NEWLINE; TRIANGLE]%N
               buildDefaultConfig None 0))) =
  occurrences TRIANGLE [TRIANGLE; 97; TRIANGLE; NEWLINE; TRIANGLE]%N `mod` 2.
Proof.
  apply annotate_single_symbol; [by vm_compute|].
  intros ch Hin Hc. apply list_elem_of_In in Hin. simpl in Hin.
  destruct Hin as [<-|[<-|[<-|[<-|[<-|[]]]]]]; try done; by vm_compute in Hc.
Defined.

(* ===================================================================== *)
(** ** parseArgs                                                          *)
(* ===================================================================== *)

Section ParseArgsFacts.

Context (parseInt10 : string → jsnumber).

Lemma seed_of_not_NaN v : seed_of parseInt10 v ≠ NaN.
Proof. unfold seed_of. by destruct (parseInt10 _) as [|[| |]|]. Qed.

(** What the loop adds to [_] is taken in order from the arguments, and
    holds no option name; the seed it leaves is a number. *)
Lemma parse_loop_spec (n : nat) :
  ∀ args out, length args ≤ n →
    arg_seed out ≠ Some NaN →
    ∃ l, arg_positional (parse_loop parseInt10 args out) = arg_positional out ++ l ∧
         l `sublist_of` args ∧
         Forall (λ a, is_flag a = false) l ∧
         arg_seed (parse_loop parseInt10 args out) ≠ Some NaN.
Proof.
  induction n as [|n IH]; intros args out Hlen Hseed.
  - destruct args; [|simpl in Hlen; lia]. exists []. simpl.
    rewrite app_nil_r. repeat split; [done|constructor|done].
  - destruct args as [|a rest]; [exists []; simpl; rewrite app_nil_r;
                                   repeat split; [done|constructor|done]|].
    simpl in Hlen.
    assert (Hopt : ∀ out', arg_positional out' = arg_positional out →
              arg_seed out' ≠ Some NaN →
              ∀ rest', length rest' ≤ n → rest' `sublist_of` a :: rest →
              ∃ l, arg_positional (parse_loop parseInt10 rest' out') = arg_positional out ++ l ∧
                   l `sublist_of` a :: rest ∧ Forall (λ a, is_flag a = false) l ∧
                   arg_seed (parse_loop parseInt10 rest' out') ≠ Some NaN).
    { intros out' Hpos Hs' rest' Hl' Hsub.
      destruct (IH rest' out' Hl' Hs') as (l & H1 & H2 & H3 & H4).
      exists l. rewrite H1, Hpos. repeat split; [by etrans|done..]. }
    assert (Hend : ∀ out', arg_positional out' = arg_positional out →
              arg_seed out' ≠ Some NaN →
              ∃ l, arg_positional out' = arg_positional out ++ l ∧
                   l `sublist_of` a :: rest ∧ Forall (λ a, is_flag a = false) l ∧
                   arg_seed out' ≠ Some NaN).
    { intros out' Hpos Hs'. exists []. rewrite app_nil_r.
      repeat split; [done|apply sublist_nil_l|constructor|done]. }
    assert (Hseed' : ∀ v, Some (seed_of parseInt10 v) ≠ Some NaN)
      by (intros v [=]; by eapply seed_of_not_NaN).
    assert (Hdrop2 : ∀ v rest', rest = v :: rest' → rest' `sublist_of` a :: rest)
      by (intros v rest' ->; by do 2 apply sublist_cons).
    simpl.
    destruct (is_palette_flag a) eqn:Hp;
      [|destruct (is_config_flag a) eqn:Hc;
        [|destruct (is_out_flag a) eqn:Ho;
          [|destruct (is_seed_flag a) eqn:Hsd]]].
    1-4: destruct rest as [|v rest'];
         [apply Hend; [done|first [done|apply Hseed']]
         |apply Hopt; [done|first [done|apply Hseed']|simpl in Hlen; lia|by eapply Hdrop2]].
    destruct (IH rest
      {| arg_positional := arg_positional out ++ [a]; arg_palette := arg_palette out;
         arg_config := arg_config out; arg_out := arg_out out; arg_seed := arg_seed out |})
      as (l & H1 & H2 & H3 & H4); [lia|done|].
    exists (a :: l). rewrite H1. simpl. rewrite <- app_assoc.
    repeat split; [by apply sublist_skip| |done].
    constructor; [|done]. unfold is_flag. by rewrite Hp, Hc, Ho, Hsd.
Qed.

(** Arguments without option names are collected as they come. *)
Lemma parse_loop_plain args out :
  Forall (λ a, is_flag a = false) args →
  parse_loop parseInt10 args out =
  {| arg_positional := arg_positional out ++ args; arg_palette := arg_palette out;
     arg_config := arg_config out; arg_out := arg_out out; arg_seed := arg_seed out |}.
Proof.
  intros Hall. revert out. induction Hall as [|a rest Ha _ IH]; intros out; simpl.
  - rewrite app_nil_r. by destruct out.
  - unfold is_flag in Ha.
    apply orb_false_iff in Ha as [Ha Hsd]. apply orb_false_iff in Ha as [Ha Ho].
    apply orb_false_iff in Ha as [Hp Hc].
    rewrite Hp, Hc, Ho, Hsd, IH. simpl. by rewrite <- app_assoc.
Qed.

End ParseArgsFacts.

(** X17. The positional arguments that [parseArgs] collects are arguments of
    the command line after the first two, in their order; none of them is
    an option name; and the seed, when set, is a number, never [NaN]. *)
Theorem parseArgs_positional (parseInt10 : string → jsnumber) (argv : list string) :
  arg_positional (parseArgs parseInt10 argv) `sublist_of` drop 2 argv ∧
  Forall (λ a, is_flag a = false) (arg_positional (parseArgs parseInt10 argv)) ∧
  arg_seed (parseArgs parseInt10 argv) ≠ Some NaN.
Proof.
  unfold parseArgs.
  destruct (parse_loop_spec parseInt10 (length (drop 2 argv)) (drop 2 argv)
    {| arg_positional := []; arg_palette := None; arg_config := None;
       arg_out := None; arg_seed := None |}) as (l & H1 & H2 & H3 & H4); [done..|].
  rewrite H1. simpl. done.
Qed.

(** X18. When no argument after the first two is an option name, [parseArgs]
    returns them all as positional arguments and leaves palette, config,
    output path and seed unset, so that [main] runs with seed 0. *)
Theorem parseArgs_no_flags (parseInt10 : string → jsnumber) (argv : list string) :
  Forall (λ a, is_flag a = false) (drop 2 argv) →
  parseArgs parseInt10 argv =
    {| arg_positional := drop 2 argv; arg_palette := None; arg_config := None;
       arg_out := None; arg_seed := None |} ∧
  main_seed (parseArgs parseInt10 argv) = 0%Z.
Proof.
  intros Hall. unfold parseArgs. by rewrite parse_loop_plain.
Qed.

Lemma parseArgs_no_flags_witness :
  parseArgs (λ _, NaN) ["node"; "annotate-delimiters.js"; "notes.txt"]%string =
    {| arg_positional := ["notes.txt"%string]; arg_palette := None; arg_config := None;
       arg_out := None; arg_seed := None |} ∧
  main_seed (parseArgs (λ _, NaN) ["node"; "annotate-delimiters.js"; "notes.txt"]%string) = 0%Z.
Proof.
  apply (parseArgs_no_flags (λ _, NaN) ["node"; "annotate-delimiters.js"; "notes.txt"]%string).
  repeat constructor.
Defined.

(* ===================================================================== *)
(** ** Hexadecimal colours: there and back                                *)
(* ===================================================================== *)

(** Every byte is read back from its two upper-case hexadecimal digits. *)
Lemma hex_byte_read (z : Z) :
  (0 ≤ z ≤ 255)%Z →
  ∃ hi lo, map upper (hex_byte (Num z)) = [hi; lo] ∧
           hi ≠ HASH ∧ lo ≠ HASH ∧ parseInt16 [hi; lo] = Num z.
Proof.
  intros Hz.
  assert (Hall : forallb (λ k,
            match map upper (hex_byte (Num (Z.of_nat k))) with
            | [hi; lo] => negb (bool_decide (hi = HASH)) && negb (bool_decide (lo = HASH)) &&
                          bool_decide (parseInt16 [hi; lo] = Num (Z.of_nat k))
            | _ => false
            end) (seq 0 256) = true) by (vm_compute; reflexivity).
  rewrite forallb_forall in Hall.
  assert (Hin : In (Z.to_nat z) (seq 0 256)) by (apply in_seq; lia).
  apply Hall in Hin. rewrite Z2Nat.id in Hin by lia.
  destruct (map upper (hex_byte (Num z))) as [|hi [|lo [|??]]]; try discriminate Hin.
  apply andb_true_iff in Hin as [Hin H3]. apply andb_true_iff in Hin as [H1 H2].
  apply negb_true_iff, bool_decide_eq_false in H1.
  apply negb_true_iff, bool_decide_eq_false in H2.
  apply bool_decide_eq_true in H3. by exists hi, lo.
Qed.

(** X19. Writing a colour and reading it back gives each component clamped to
    the range of a byte: [hexToRgb(rgbToHex({r, g, b}))] is
    [{r, g, b}] with each number moved into [[0, 255]]. *)
Theorem hexToRgb_rgbToHex (r g b : Z) :
  hexToRgb (rgbToHex {| rgb_r := Num r; rgb_g := Num g; rgb_b := Num b |}) =
  {| rgb_r := Num (clamp255 r); rgb_g := Num (clamp255 g); rgb_b := Num (clamp255 b) |}.
Proof.
  assert (Hclamp : ∀ z, hex_byte (Num z) = hex_byte (Num (clamp255 z))).
  { intros z. unfold hex_byte, clamp255.
    by rewrite (Z.max_r 0 (Z.min 255 (Z.max 0 (Z.min 255 z)))),
               (Z.min_r 255 (Z.max 0 (Z.min 255 z))) by lia. }
  assert (Hrange : ∀ z, (0 ≤ clamp255 z ≤ 255)%Z) by (intros z; unfold clamp255; lia).
  unfold rgbToHex. cbn [rgb_r rgb_g rgb_b].
  rewrite (Hclamp r), (Hclamp g), (Hclamp b).
  destruct (hex_byte_read _ (Hrange r)) as (r1 & r2 & Er & Hr1 & Hr2 & Pr).
  destruct (hex_byte_read _ (Hrange g)) as (g1 & g2 & Eg & Hg1 & Hg2 & Pg).
  destruct (hex_byte_read _ (Hrange b)) as (b1 & b2 & Eb & Hb1 & Hb2 & Pb).
  cbn [map]. rewrite !map_app, Er, Eg, Eb.
  unfold hexToRgb. cbn [remove_hash app]. rewrite bool_decide_true by done.
  cbn [take drop]. by rewrite Pr, Pg, Pb.
Qed.

(** Two hexadecimal digits are written back as they were read, in upper
    case. *)
Lemma hex_pair_write (d1 d2 : N) :
  is_Some (hex_value d1) → is_Some (hex_value d2) →
  map upper (hex_byte (parseInt16 [d1; d2])) = [upper d1; upper d2].
Proof.
  intros H1 H2.
  assert (Hdigit : ∀ d, is_Some (hex_value d) →
            In d (map N.of_nat (seq 48 10 ++ seq 65 6 ++ seq 97 6))).
  { intros d [v Hv]. unfold hex_value in Hv.
    apply in_map_iff. exists (N.to_nat d). split; [lia|].
    rewrite !in_app_iff, !in_seq.
    repeat match type of Hv with
           | context [(?x <=? ?y)%N] => destruct (N.leb_spec x y)
           end; simpl in Hv; try discriminate Hv; lia. }
  assert (Hall : forallb (λ d1, forallb (λ d2,
            bool_decide (map upper (hex_byte (parseInt16 [d1; d2])) = [upper d1; upper d2]))
            (map N.of_nat (seq 48 10 ++ seq 65 6 ++ seq 97 6)))
            (map N.of_nat (seq 48 10 ++ seq 65 6 ++ seq 97 6)) = true)
    by (vm_compute; reflexivity).
  rewrite forallb_forall in Hall. specialize (Hall d1 (Hdigit d1 H1)).
  rewrite forallb_forall in Hall. specialize (Hall d2 (Hdigit d2 H2)).
  by apply bool_decide_eq_true in Hall.
Qed.

(** X20. A colour argument that passes the test of the script, six
    hexadecimal digits with or without [#], is read by [hexToRgb] and
    written back by [rgbToHex] as itself, with [#] and in upper case. *)
Theorem rgbToHex_hexToRgb (s : list N) :
  is_hex_arg s = true →
  rgbToHex (hexToRgb (baseHex s)) = map upper (baseHex s).
Proof.
  unfold is_hex_arg, baseHex. intros Hv.
  assert (Hsix : ∃ d1 d2 d3 d4 d5 d6,
            (s = [d1; d2; d3; d4; d5; d6] ∨ s = [HASH; d1; d2; d3; d4; d5; d6]) ∧
            Forall (λ c, is_Some (hex_value c)) [d1; d2; d3; d4; d5; d6]).
  { apply andb_true_iff in Hv as [Hlen Hall].
    apply bool_decide_eq_true in Hlen.
    assert (Hall' : ∀ l, forallb (λ c, bool_decide (is_Some (hex_value c))) l = true →
                         Forall (λ c, is_Some (hex_value c)) l).
    { intros l H. apply Forall_forall. intros c Hc%list_elem_of_In.
      rewrite forallb_forall in H. by apply H, bool_decide_eq_true in Hc. }
    apply Hall' in Hall.
    destruct s as [|c s]; [done|]. case_bool_decide as Hc.
    - subst c. destruct s as [|d1 [|d2 [|d3 [|d4 [|d5 [|d6 [|??]]]]]]]; try done.
      exists d1, d2, d3, d4, d5, d6. auto.
    - destruct s as [|d2 [|d3 [|d4 [|d5 [|d6 [|??]]]]]]; try done.
      exists c, d2, d3, d4, d5, d6. auto. }
  destruct Hsix as (d1 & d2 & d3 & d4 & d5 & d6 & Hs & Hd).
  assert (Hbase : (match s with
                   | c :: _ => if bool_decide (c = HASH) then s else HASH :: s
                   | [] => HASH :: s
                   end) = [HASH; d1; d2; d3; d4; d5; d6]).
  { destruct Hs as [-> | ->]; [|by rewrite bool_decide_true].
    rewrite bool_decide_false; [done|].
    intros ->. apply Forall_cons in Hd as [[v Hv'] _]. by vm_compute in Hv'. }
  rewrite Hbase.
  repeat (apply Forall_cons in Hd as [? Hd]).
  unfold hexToRgb, rgbToHex. cbn [remove_hash]. rewrite bool_decide_true by done.
  cbn [take drop rgb_r rgb_g rgb_b]. cbn [map]. rewrite !map_app.
  rewrite !hex_pair_write by done. done.
Qed.

Lemma rgbToHex_hexToRgb_witness :
  rgbToHex (hexToRgb (baseHex [48; 48; 55; 98; 102; 102]%N)) =
  map upper (baseHex [48; 48; 55; 98; 102; 102]%N).
Proof. apply rgbToHex_hexToRgb. vm_compute. reflexivity. Defined.
